(** * Myntraq: membership, messaging and conversation views

    A shallow embedding of the server side of the messenger: the four
    relational tables of [shared/schema.ts], the data-access class
    [DatabaseStorage] of [server/storage.ts] and the request handlers of
    [server/routes.ts], followed by the properties of the membership and
    messaging rules.

    Modelling conventions.
    - A table is the list of its rows, oldest first; an UPDATE rewrites rows
      in place and a SELECT without ORDER BY returns them in list order.
    - Timestamps are integers (milliseconds since the epoch); a nullable
      column is an [option].
    - [gen_random_uuid()] and the clock are inputs of the world the handlers
      run in; a primary key that is already taken makes the INSERT throw.
    - The profile table only decorates rows for display (the [profile] and
      [sender] joins) and is left out, together with the routes that serve
      it. *)

From Stdlib Require Import ZArith String Ascii List Sorted Lia.
From stdpp Require Import prelude strings pretty sorting.

Open Scope string_scope.
Open Scope list_scope.
Open Scope Z_scope.

(** ** Schema ([shared/schema.ts]) *)

Inductive ChatType := private | group | channel.
Inductive Role := admin | member.
Inductive MessageType := text | image | file | voice.
Inductive FriendStatus := pending | accepted | rejected.

#[global] Instance ChatType_eq_dec : EqDecision ChatType.
Proof. solve_decision. Defined.
#[global] Instance Role_eq_dec : EqDecision Role.
Proof. solve_decision. Defined.
#[global] Instance MessageType_eq_dec : EqDecision MessageType.
Proof. solve_decision. Defined.
#[global] Instance FriendStatus_eq_dec : EqDecision FriendStatus.
Proof. solve_decision. Defined.

(** Row of [chats]. *)
Record Chat := mkChat {
  c_id : string;
  c_type : ChatType;
  c_name : option string;
  c_description : option string;
  c_iconUrl : option string;
  c_createdBy : option string;
  c_createdAt : option Z;
  c_updatedAt : option Z }.

(** Row of [chat_participants]. The table has a primary key on [id] only:
    nothing makes a pair (chatId, userId) unique. *)
Record ChatParticipant := mkChatParticipant {
  p_id : string;
  p_chatId : string;
  p_userId : string;
  p_role : Role;
  p_joinedAt : option Z;
  p_lastRead : option Z }.

(** Row of [messages]. *)
Record Message := mkMessage {
  m_id : string;
  m_chatId : string;
  m_senderId : string;
  m_content : string;
  m_type : MessageType;
  m_attachmentUrl : option string;
  m_attachmentName : option string;
  m_attachmentSize : option Z;
  m_createdAt : option Z;
  m_isRead : option bool }.

(** Row of [friendships]. *)
Record Friendship := mkFriendship {
  f_id : string;
  f_userId : string;
  f_friendId : string;
  f_status : FriendStatus;
  f_createdAt : option Z }.

(** [ChatWithDetails]: a chat row with its participants, its most recent
    message and an unread counter. *)
Record ChatWithDetails := mkChatWithDetails {
  cd_chat : Chat;
  participants : list ChatParticipant;
  lastMessage : option Message;
  unreadCount : nat }.

(** Insert shapes: the columns a caller supplies; the others take their
    column default. *)
Record InsertChat := mkInsertChat {
  ic_type : ChatType;
  ic_name : option string;
  ic_description : option string;
  ic_createdBy : option string }.

Record InsertChatParticipant := mkInsertChatParticipant {
  ip_chatId : string;
  ip_userId : string;
  ip_role : option Role }.

Record InsertMessage := mkInsertMessage {
  im_chatId : string;
  im_senderId : string;
  im_content : string;
  im_type : MessageType;
  im_attachmentUrl : option string;
  im_attachmentName : option string;
  im_attachmentSize : option Z }.

Record InsertFriendship := mkInsertFriendship {
  if_userId : string;
  if_friendId : string;
  if_status : FriendStatus }.

(** The fields [updateChat] receives from its one caller; [None] is a field
    left [undefined], which the UPDATE does not touch. *)
Record ChatPatch := mkChatPatch {
  cp_name : option string;
  cp_description : option string;
  cp_iconUrl : option string }.

(** ** The database and the world around it *)

Record DB := mkDB {
  chats : list Chat;
  chatParticipants : list ChatParticipant;
  messages : list Message;
  friendships : list Friendship }.

Definition empty_db : DB := mkDB [] [] [] [].

(** [uuids] is the sequence of identifiers the database will generate and
    [drawn] how many of them have been taken; [clock] is the current time. *)
Record World := mkWorld {
  db : DB;
  clock : Z;
  uuids : nat → string;
  drawn : nat }.

Definition set_db (w : World) (d : DB) : World :=
  mkWorld d (clock w) (uuids w) (drawn w).

Definition set_chats (d : DB) (l : list Chat) : DB :=
  mkDB l (chatParticipants d) (messages d) (friendships d).
Definition set_chatParticipants (d : DB) (l : list ChatParticipant) : DB :=
  mkDB (chats d) l (messages d) (friendships d).
Definition set_messages (d : DB) (l : list Message) : DB :=
  mkDB (chats d) (chatParticipants d) l (friendships d).
Definition set_friendships (d : DB) (l : list Friendship) : DB :=
  mkDB (chats d) (chatParticipants d) (messages d) l.

(** ** Asynchronous computations: state passing with exceptions

    A storage call or a handler body runs on a world and either returns a
    value or throws; the world it leaves behind is kept in both cases (there
    is no transaction around a handler). *)

Inductive Outcome (A : Type) :=
  | Returned (a : A)
  | Thrown (e : string).
Arguments Returned {A} a.
Arguments Thrown {A} e.

Definition Async (A : Type) : Type := World → Outcome A * World.

#[global] Instance Async_ret : MRet Async := λ A a w, (Returned a, w).
#[global] Instance Async_bind : MBind Async := λ A B f m w,
  match m w with
  | (Returned a, w') => f a w'
  | (Thrown e, w') => (Thrown e, w')
  end.

Definition throw {A} (e : string) : Async A := λ w, (Thrown e, w).
Definition query {A} (f : DB → A) : Async A := λ w, (Returned (f (db w)), w).
Definition execute (f : DB → DB) : Async unit :=
  λ w, (Returned tt, set_db w (f (db w))).
Definition now : Async Z := λ w, (Returned (clock w), w).
Definition gen_random_uuid : Async string :=
  λ w, (Returned (uuids w (drawn w)),
        mkWorld (db w) (clock w) (uuids w) (S (drawn w))).

(** [for (const x of l) { await body(x) }] *)
Fixpoint for_of {A} (l : list A) (body : A → Async unit) : Async unit :=
  match l with
  | [] => mret tt
  | x :: l' => body x;; for_of l' body
  end.

(** ** JavaScript and SQL helpers *)

(** [Array.prototype.sort(cmp)]: a stable sort; [a] stays before [b] unless
    [cmp a b > 0]. *)
Fixpoint sort_insert {A} (cmp : A → A → Z) (x : A) (l : list A) : list A :=
  match l with
  | [] => [x]
  | y :: l' => if decide (cmp x y ≤ 0) then x :: y :: l'
               else y :: sort_insert cmp x l'
  end.

Definition Array_sort {A} (cmp : A → A → Z) (l : list A) : list A :=
  foldr (sort_insert cmp) [] l.

(** [ORDER BY col DESC] on a nullable timestamp: NULLs come first. *)
Definition desc (a b : option Z) : Z :=
  match a, b with
  | None, None => 0
  | None, Some _ => -1
  | Some _, None => 1
  | Some x, Some y => y - x
  end.

(** [new Date(x).getTime()] for [x] a timestamp or [null]: [null] is the
    epoch. *)
Definition getTime (x : option Z) : Z := default 0 x.

(** [a || b] on values that are truthy whenever they are present. *)
Definition or_else {A} (a b : option A) : option A :=
  match a with Some _ => a | None => b end.

(** [s || null] on an optional string: the empty string is falsy. *)
Definition nonempty (s : option string) : option string :=
  match s with
  | Some "" => None
  | _ => s
  end.

(** [n || null] on an optional number: zero is falsy. *)
Definition nonzero (n : option Z) : option Z :=
  match n with
  | Some 0 => None
  | _ => n
  end.

Definition is_space (c : ascii) : bool :=
  let n := nat_of_ascii c in
  (Nat.leb 9 n && Nat.leb n 13)%bool || Nat.eqb n 32.

Fixpoint trim_start (s : string) : string :=
  match s with
  | String c s' => if is_space c then trim_start s' else s
  | EmptyString => EmptyString
  end.

Fixpoint trim_end (s : string) : string :=
  match s with
  | String c s' =>
      match trim_end s' with
      | EmptyString => if is_space c then EmptyString else String c EmptyString
      | t => String c t
      end
  | EmptyString => EmptyString
  end.

(** [String.prototype.trim] on ASCII white space. *)
Definition trim (s : string) : string := trim_end (trim_start s).

(** ** Storage ([server/storage.ts], class [DatabaseStorage])

    Reads are functions of the database; writes are [Async] computations. *)

(** [const [row] = await db.select()...]: the first row of the result. *)
Definition first_row {A} (rows : list A) : option A := head rows.

(** INSERT under a primary key on [id]. *)
Definition insert_returning {A} (table : DB → list A) (key : A → string)
    (store : DB → list A → DB) (row : A) : Async A := λ w,
  if decide (key row ∈ key <$> table (db w))
  then (Thrown "duplicate key value violates unique constraint", w)
  else (Returned row, set_db w (store (db w) (table (db w) ++ [row]))).

(** UPDATE ... SET ... WHERE: the table with the matching rows rewritten in
    place. DELETE ... WHERE: the table without the matching rows. *)
Definition update_where {A} (P : A → Prop) `{∀ x, Decision (P x)}
    (f : A → A) (rows : list A) : list A :=
  (λ r, if decide (P r) then f r else r) <$> rows.

Definition delete_where {A} (P : A → Prop) `{∀ x, Decision (P x)}
    (rows : list A) : list A :=
  filter (λ r, ¬ P r) rows.

Definition getChat (d : DB) (chatId : string) : option Chat :=
  first_row (filter (λ c, c_id c = chatId) (chats d)).

Definition getChatParticipants (d : DB) (chatId : string)
    : list ChatParticipant :=
  filter (λ p, p_chatId p = chatId) (chatParticipants d).

Definition getChatParticipant (d : DB) (chatId userId : string)
    : option ChatParticipant :=
  first_row (filter (λ p, p_chatId p = chatId ∧ p_userId p = userId)
                    (chatParticipants d)).

(** [getMessages(chatId, limit = 50)]: the [limit] most recent messages,
    returned oldest first. *)
Definition getMessages (d : DB) (chatId : string) (limit : nat)
    : list Message :=
  let msgs :=
    take limit
      (Array_sort (λ a b, desc (m_createdAt a) (m_createdAt b))
                  (filter (λ m, m_chatId m = chatId) (messages d))) in
  reverse msgs.

Definition getChatWithDetails (d : DB) (chatId : string)
    : option ChatWithDetails :=
  match getChat d chatId with
  | None => None
  | Some chat =>
      let participants := getChatParticipants d chatId in
      let msgs := getMessages d chatId 1 in
      let lastMessage := head msgs in
      Some (mkChatWithDetails chat participants lastMessage 0)
  end.

(** The WHERE clause of the unread count: [created_at > lastRead] when the
    cursor is set (false on a NULL [created_at]), [true] otherwise. *)
Definition after_cursor (lastRead : option Z) (m : Message) : Prop :=
  match lastRead with
  | Some r => match m_createdAt m with Some t => r < t | None => False end
  | None => True
  end.

#[global] Instance after_cursor_dec lastRead m :
  Decision (after_cursor lastRead m).
Proof.
  unfold after_cursor.
  destruct lastRead; [destruct (m_createdAt m)|]; apply _.
Defined.

(** What the chat list is ordered by: [lastMessage?.createdAt || createdAt],
    read as a time. *)
Definition activity (c : ChatWithDetails) : Z :=
  getTime (or_else (lastMessage c ≫= m_createdAt) (c_createdAt (cd_chat c))).

Definition getUserChats (d : DB) (userId : string) : list ChatWithDetails :=
  let userParticipations :=
    filter (λ p, p_userId p = userId) (chatParticipants d) in
  let chatIds := p_chatId <$> userParticipations in
  if decide (length chatIds = 0%nat) then [] else
  let userChats :=
    (λ chatId,
       match getChatWithDetails d chatId with
       | None => None
       | Some chatWithDetails =>
           let participation :=
             head (filter (λ p, p_chatId p = chatId) userParticipations) in
           let lastRead := participation ≫= p_lastRead in
           let unreadMessages :=
             length (filter (λ m, m_chatId m = chatId ∧
                                  m_senderId m ≠ userId ∧
                                  after_cursor lastRead m) (messages d)) in
           Some (mkChatWithDetails (cd_chat chatWithDetails)
                                   (participants chatWithDetails)
                                   (lastMessage chatWithDetails)
                                   unreadMessages)
       end) <$> chatIds in
  Array_sort (λ a b, activity b - activity a) (omap id userChats).

Definition createChat (chat : InsertChat) : Async Chat :=
  id ← gen_random_uuid;
  t ← now;
  insert_returning chats c_id set_chats
    (mkChat id (ic_type chat) (ic_name chat) (ic_description chat) None
            (ic_createdBy chat) (Some t) (Some t)).

Definition updateChat (chatId : string) (data : ChatPatch)
    : Async (option Chat) :=
  t ← now;
  let set c :=
    mkChat (c_id c) (c_type c)
           (or_else (cp_name data) (c_name c))
           (or_else (cp_description data) (c_description c))
           (or_else (cp_iconUrl data) (c_iconUrl c))
           (c_createdBy c) (c_createdAt c) (Some t) in
  execute (λ d, set_chats d
     (update_where (λ c, c_id c = chatId) set (chats d)));;
  query (λ d, first_row (filter (λ c, c_id c = chatId) (chats d))).

Definition deleteChat (chatId : string) : Async unit :=
  execute (λ d, set_messages d
     (delete_where (λ m, m_chatId m = chatId) (messages d)));;
  execute (λ d, set_chatParticipants d
     (delete_where (λ p, p_chatId p = chatId) (chatParticipants d)));;
  execute (λ d, set_chats d
     (delete_where (λ c, c_id c = chatId) (chats d))).

Definition getPrivateChatBetweenUsers (d : DB) (userId1 userId2 : string)
    : option Chat :=
  let user1Chats := filter (λ p, p_userId p = userId1) (chatParticipants d) in
  first_row
    (omap (λ participation,
       match getChat d (p_chatId participation) with
       | Some chat =>
           if decide (c_type chat = private) then
             let participants :=
               getChatParticipants d (p_chatId participation) in
             if decide (length participants = 2%nat ∧
                        Exists (λ p, p_userId p = userId2) participants)
             then Some chat else None
           else None
       | None => None
       end) user1Chats).

Definition addChatParticipant (participant : InsertChatParticipant)
    : Async ChatParticipant :=
  id ← gen_random_uuid;
  t ← now;
  insert_returning chatParticipants p_id set_chatParticipants
    (mkChatParticipant id (ip_chatId participant) (ip_userId participant)
       (default member (ip_role participant)) (Some t) None).

Definition removeChatParticipant (chatId userId : string) : Async unit :=
  execute (λ d, set_chatParticipants d
     (delete_where (λ p, p_chatId p = chatId ∧ p_userId p = userId)
                   (chatParticipants d))).

Definition updateParticipantRole (chatId userId : string) (role : Role)
    : Async (option ChatParticipant) :=
  let set p :=
    mkChatParticipant (p_id p) (p_chatId p) (p_userId p) role
                      (p_joinedAt p) (p_lastRead p) in
  execute (λ d, set_chatParticipants d
     (update_where (λ p, p_chatId p = chatId ∧ p_userId p = userId) set
                   (chatParticipants d)));;
  query (λ d, getChatParticipant d chatId userId).

Definition createMessage (message : InsertMessage) : Async Message :=
  id ← gen_random_uuid;
  t ← now;
  created ← insert_returning messages m_id set_messages
    (mkMessage id (im_chatId message) (im_senderId message)
       (im_content message) (im_type message) (im_attachmentUrl message)
       (im_attachmentName message) (im_attachmentSize message)
       (Some t) (Some false));
  t' ← now;
  execute (λ d, set_chats d
     (update_where (λ c, c_id c = im_chatId message)
        (λ c, mkChat (c_id c) (c_type c) (c_name c) (c_description c)
                     (c_iconUrl c) (c_createdBy c) (c_createdAt c) (Some t'))
        (chats d)));;
  mret created.

Definition markMessagesAsRead (chatId userId : string) : Async unit :=
  t ← now;
  execute (λ d, set_chatParticipants d
     (update_where (λ p, p_chatId p = chatId ∧ p_userId p = userId)
        (λ p, mkChatParticipant (p_id p) (p_chatId p) (p_userId p)
                (p_role p) (p_joinedAt p) (Some t))
        (chatParticipants d))).

Definition getFriendship (d : DB) (userId friendId : string)
    : option Friendship :=
  first_row
    (filter (λ f, (f_userId f = userId ∧ f_friendId f = friendId) ∨
                  (f_userId f = friendId ∧ f_friendId f = userId))
            (friendships d)).

Definition createFriendship (friendship : InsertFriendship)
    : Async Friendship :=
  id ← gen_random_uuid;
  t ← now;
  insert_returning friendships f_id set_friendships
    (mkFriendship id (if_userId friendship) (if_friendId friendship)
                  (if_status friendship) (Some t)).

Definition updateFriendshipStatus (id : string) (status : FriendStatus)
    : Async (option Friendship) :=
  let set f :=
    mkFriendship (f_id f) (f_userId f) (f_friendId f) status (f_createdAt f) in
  execute (λ d, set_friendships d
     (update_where (λ f, f_id f = id) set (friendships d)));;
  query (λ d, first_row (filter (λ f, f_id f = id) (friendships d))).

Definition getUserFriends (d : DB) (userId : string) : list Friendship :=
  filter (λ f, (f_userId f = userId ∨ f_friendId f = userId) ∧
               f_status f = accepted) (friendships d).

Definition getPendingRequests (d : DB) (userId : string) : list Friendship :=
  filter (λ f, f_friendId f = userId ∧ f_status f = pending) (friendships d).

(** ** Request handlers ([server/routes.ts])

    Every handler runs behind [isAuthenticated]: [userId] is the caller's
    identity, [req.user.claims.sub]. *)

Inductive Json :=
  | JError (message : string)
  | JSuccess
  | JChat (c : option Chat)
  | JChatWithDetails (c : option ChatWithDetails)
  | JChats (l : list ChatWithDetails)
  | JMessage (m : Message)
  | JMessages (l : list Message)
  | JParticipant (p : option ChatParticipant)
  | JFriendship (f : option Friendship)
  | JFriendships (l : list Friendship).

Record Response := mkResponse { status : Z; body : Json }.

(** [res.json(b)] and [res.status(s).json({ message })]. *)
Definition json (b : Json) : Async Response := mret (mkResponse 200 b).
Definition status_json (s : Z) (message : string) : Async Response :=
  mret (mkResponse s (JError message)).

(** [try { ... } catch (error) { res.status(500).json({ message }) }] *)
Definition try_catch (h : Async Response) (message : string)
    : World → Response * World := λ w,
  match h w with
  | (Returned r, w') => (r, w')
  | (Thrown _, w') => (mkResponse 500 (JError message), w')
  end.

(** Request bodies and their validation schemas. A body holds the fields the
    schema names; enumerations are typed, and a value outside the schema's
    own list is refused by the schema. *)

Definition length_between (lo hi : nat) (s : string) : Prop :=
  (lo ≤ String.length s ≤ hi)%nat.
Definition optional {A} (P : A → Prop) (x : option A) : Prop :=
  match x with Some a => P a | None => True end.

#[global] Instance optional_dec {A} (P : A → Prop) `{∀ a, Decision (P a)}
  (x : option A) : Decision (optional P x).
Proof. destruct x; simpl; apply _. Defined.

Record CreateChatBody := mkCreateChatBody { participantId : string }.
Definition createChatSchema (b : CreateChatBody) : Prop :=
  (1 ≤ String.length (participantId b))%nat.

Record CreateGroupBody := mkCreateGroupBody {
  cg_name : string;
  cg_description : option string;
  cg_memberIds : option (list string);
  cg_type : option ChatType }.
Definition createGroupSchema (b : CreateGroupBody) : Prop :=
  length_between 1 100 (cg_name b) ∧
  optional (length_between 0 500) (cg_description b) ∧
  optional (λ t, t = group ∨ t = channel) (cg_type b).

Record SendMessageBody := mkSendMessageBody {
  sm_content : string;
  sm_type : option MessageType;
  sm_attachmentUrl : option string;
  sm_attachmentName : option string;
  sm_attachmentSize : option Z }.
Definition sendMessageSchema (b : SendMessageBody) : Prop :=
  length_between 1 5000 (sm_content b).

Record UpdateGroupBody := mkUpdateGroupBody {
  ug_name : option string;
  ug_description : option string;
  ug_iconUrl : option string }.
Definition updateGroupSchema (b : UpdateGroupBody) : Prop :=
  optional (length_between 1 100) (ug_name b) ∧
  optional (length_between 0 500) (ug_description b).

Record AddMembersBody := mkAddMembersBody { am_memberIds : list string }.
Definition addMembersSchema (b : AddMembersBody) : Prop :=
  (1 ≤ length (am_memberIds b))%nat.

Record UpdateRoleBody := mkUpdateRoleBody { ur_role : Role }.

Record CreateFriendshipBody := mkCreateFriendshipBody { friendId : string }.
Definition createFriendshipSchema (b : CreateFriendshipBody) : Prop :=
  (1 ≤ String.length (friendId b))%nat.

Record UpdateFriendshipBody := mkUpdateFriendshipBody {
  uf_status : FriendStatus }.
Definition updateFriendshipSchema (b : UpdateFriendshipBody) : Prop :=
  uf_status b = accepted ∨ uf_status b = rejected.

(** [!participant || participant.role !== 'admin'] *)
Definition not_admin (participant : option ChatParticipant) : Prop :=
  match participant with
  | None => True
  | Some p => p_role p ≠ admin
  end.

#[global] Instance not_admin_dec participant : Decision (not_admin participant).
Proof. destruct participant; simpl; apply _. Defined.

(** GET /api/chats *)
Definition GET_chats (userId : string) : World → Response * World :=
  try_catch
    (chats ← query (λ d, getUserChats d userId);
     json (JChats chats))
    "Failed to get chats".

(** GET /api/chats/:chatId *)
Definition GET_chat (userId chatId : string) : World → Response * World :=
  try_catch
    (chat ← query (λ d, getChatWithDetails d chatId);
     match chat with
     | None => status_json 404 "Chat not found"
     | Some _ => json (JChatWithDetails chat)
     end)
    "Failed to get chat".

(** POST /api/chats *)
Definition POST_chats (userId : string) (b : CreateChatBody)
    : World → Response * World :=
  try_catch
    (if decide (createChatSchema b) then
       existingChat ←
         query (λ d, getPrivateChatBetweenUsers d userId (participantId b));
       match existingChat with
       | Some existing =>
           chatWithDetails ← query (λ d, getChatWithDetails d (c_id existing));
           json (JChatWithDetails chatWithDetails)
       | None =>
           chat ← createChat (mkInsertChat private None None None);
           addChatParticipant
             (mkInsertChatParticipant (c_id chat) userId None);;
           addChatParticipant
             (mkInsertChatParticipant (c_id chat) (participantId b) None);;
           chatWithDetails ← query (λ d, getChatWithDetails d (c_id chat));
           json (JChatWithDetails chatWithDetails)
       end
     else status_json 400 "Invalid chat data")
    "Failed to create chat".

(** POST /api/groups *)
Definition POST_groups (userId : string) (b : CreateGroupBody)
    : World → Response * World :=
  try_catch
    (if decide (createGroupSchema b) then
       let memberIds := default [] (cg_memberIds b) in
       let type := default group (cg_type b) in
       chat ← createChat
         (mkInsertChat type (Some (cg_name b)) (nonempty (cg_description b))
                       (Some userId));
       addChatParticipant
         (mkInsertChatParticipant (c_id chat) userId (Some admin));;
       for_of memberIds (λ memberId,
         addChatParticipant
           (mkInsertChatParticipant (c_id chat) memberId (Some member));;
         mret tt);;
       chatWithDetails ← query (λ d, getChatWithDetails d (c_id chat));
       json (JChatWithDetails chatWithDetails)
     else status_json 400 "Invalid group data")
    "Failed to create group".

(** GET /api/chats/:chatId/messages *)
Definition GET_chat_messages (userId chatId : string)
    : World → Response * World :=
  try_catch
    (markMessagesAsRead chatId userId;;
     messages ← query (λ d, getMessages d chatId 50);
     json (JMessages messages))
    "Failed to get messages".

(** POST /api/chats/:chatId/messages *)
Definition POST_chat_messages (userId chatId : string) (b : SendMessageBody)
    : World → Response * World :=
  try_catch
    (if decide (sendMessageSchema b) then
       chat ← query (λ d, getChatWithDetails d chatId);
       let send :=
         message ← createMessage
           (mkInsertMessage chatId userId (trim (sm_content b))
              (default text (sm_type b))
              (nonempty (sm_attachmentUrl b))
              (nonempty (sm_attachmentName b))
              (nonzero (sm_attachmentSize b)));
         json (JMessage message) in
       match chat with
       | Some c =>
           if decide (c_type (cd_chat c) = channel) then
             let participant :=
               head (filter (λ p, p_userId p = userId) (participants c)) in
             if decide (not_admin participant)
             then status_json 403 "Only admins can post in channels"
             else send
           else send
       | None => send
       end
     else status_json 400 "Invalid message data")
    "Failed to send message".

(** PATCH /api/groups/:chatId *)
Definition PATCH_group (userId chatId : string) (b : UpdateGroupBody)
    : World → Response * World :=
  try_catch
    (if decide (updateGroupSchema b) then
       participant ← query (λ d, getChatParticipant d chatId userId);
       if decide (not_admin participant)
       then status_json 403 "Only admins can update group settings"
       else
         chat ← updateChat chatId
           (mkChatPatch (ug_name b) (ug_description b) (ug_iconUrl b));
         json (JChat chat)
     else status_json 400 "Invalid data")
    "Failed to update group".

(** DELETE /api/groups/:chatId *)
Definition DELETE_group (userId chatId : string) : World → Response * World :=
  try_catch
    (chat ← query (λ d, getChat d chatId);
     match chat with
     | None => status_json 404 "Chat not found"
     | Some chat =>
         if decide (c_createdBy chat ≠ Some userId)
         then status_json 403 "Only the creator can delete this group"
         else deleteChat chatId;; json JSuccess
     end)
    "Failed to delete group".

(** POST /api/groups/:chatId/members *)
Definition POST_group_members (userId chatId : string) (b : AddMembersBody)
    : World → Response * World :=
  try_catch
    (if decide (addMembersSchema b) then
       participant ← query (λ d, getChatParticipant d chatId userId);
       if decide (not_admin participant)
       then status_json 403 "Only admins can add members"
       else
         for_of (am_memberIds b) (λ memberId,
           existing ← query (λ d, getChatParticipant d chatId memberId);
           match existing with
           | None =>
               addChatParticipant
                 (mkInsertChatParticipant chatId memberId (Some member));;
               mret tt
           | Some _ => mret tt
           end);;
         chatWithDetails ← query (λ d, getChatWithDetails d chatId);
         json (JChatWithDetails chatWithDetails)
     else status_json 400 "Invalid data")
    "Failed to add members".

(** DELETE /api/groups/:chatId/members/:memberId *)
Definition DELETE_group_member (userId chatId memberId : string)
    : World → Response * World :=
  try_catch
    (chat ← query (λ d, getChat d chatId);
     match chat with
     | None => status_json 404 "Chat not found"
     | Some chat =>
         let remove :=
           if decide (Some memberId = c_createdBy chat)
           then status_json 400 "Cannot remove the group creator"
           else removeChatParticipant chatId memberId;; json JSuccess in
         if decide (memberId ≠ userId) then
           participant ← query (λ d, getChatParticipant d chatId userId);
           if decide (not_admin participant)
           then status_json 403 "Only admins can remove members"
           else remove
         else remove
     end)
    "Failed to remove member".

(** PATCH /api/groups/:chatId/members/:memberId/role *)
Definition PATCH_group_member_role (userId chatId memberId : string)
    (b : UpdateRoleBody) : World → Response * World :=
  try_catch
    (participant ← query (λ d, getChatParticipant d chatId userId);
     if decide (not_admin participant)
     then status_json 403 "Only admins can change roles"
     else
       updated ← updateParticipantRole chatId memberId (ur_role b);
       json (JParticipant updated))
    "Failed to update role".

(** GET /api/friends *)
Definition GET_friends (userId : string) : World → Response * World :=
  try_catch
    (friends ← query (λ d, getUserFriends d userId);
     json (JFriendships friends))
    "Failed to get friends".

(** GET /api/friends/requests *)
Definition GET_friends_requests (userId : string)
    : World → Response * World :=
  try_catch
    (requests ← query (λ d, getPendingRequests d userId);
     json (JFriendships requests))
    "Failed to get friend requests".

(** POST /api/friends *)
Definition POST_friends (userId : string) (b : CreateFriendshipBody)
    : World → Response * World :=
  try_catch
    (if decide (createFriendshipSchema b) then
       existing ← query (λ d, getFriendship d userId (friendId b));
       match existing with
       | Some _ => status_json 400 "Friendship already exists"
       | None =>
           friendship ← createFriendship
             (mkInsertFriendship userId (friendId b) pending);
           json (JFriendship (Some friendship))
       end
     else status_json 400 "Invalid friend data")
    "Failed to add friend".

(** PATCH /api/friends/:friendshipId *)
Definition PATCH_friend (userId friendshipId : string)
    (b : UpdateFriendshipBody) : World → Response * World :=
  try_catch
    (if decide (updateFriendshipSchema b) then
       friendship ← updateFriendshipStatus friendshipId (uf_status b);
       json (JFriendship friendship)
     else status_json 400 "Invalid status")
    "Failed to update friendship".

(** ** The server as a transition system *)

Inductive Request :=
  | GetChats
  | GetChat (chatId : string)
  | PostChats (b : CreateChatBody)
  | PostGroups (b : CreateGroupBody)
  | GetChatMessages (chatId : string)
  | PostChatMessages (chatId : string) (b : SendMessageBody)
  | PatchGroup (chatId : string) (b : UpdateGroupBody)
  | DeleteGroup (chatId : string)
  | PostGroupMembers (chatId : string) (b : AddMembersBody)
  | DeleteGroupMember (chatId memberId : string)
  | PatchGroupMemberRole (chatId memberId : string) (b : UpdateRoleBody)
  | GetFriends
  | GetFriendsRequests
  | PostFriends (b : CreateFriendshipBody)
  | PatchFriend (friendshipId : string) (b : UpdateFriendshipBody).

Definition handle (userId : string) (r : Request)
    : World → Response * World :=
  match r with
  | GetChats => GET_chats userId
  | GetChat chatId => GET_chat userId chatId
  | PostChats b => POST_chats userId b
  | PostGroups b => POST_groups userId b
  | GetChatMessages chatId => GET_chat_messages userId chatId
  | PostChatMessages chatId b => POST_chat_messages userId chatId b
  | PatchGroup chatId b => PATCH_group userId chatId b
  | DeleteGroup chatId => DELETE_group userId chatId
  | PostGroupMembers chatId b => POST_group_members userId chatId b
  | DeleteGroupMember chatId memberId =>
      DELETE_group_member userId chatId memberId
  | PatchGroupMemberRole chatId memberId b =>
      PATCH_group_member_role userId chatId memberId b
  | GetFriends => GET_friends userId
  | GetFriendsRequests => GET_friends_requests userId
  | PostFriends b => POST_friends userId b
  | PatchFriend friendshipId b => PATCH_friend userId friendshipId b
  end.

(** Time passes. *)
Definition advance (t : Z) (w : World) : World :=
  mkWorld (db w) t (uuids w) (drawn w).

(** A world is reachable when it comes from an empty database by serving
    requests, with time passing in between. *)
Inductive reachable : World → Prop :=
  | reachable_init t ids : reachable (mkWorld empty_db t ids 0)
  | reachable_tick w t :
      reachable w → clock w ≤ t → reachable (advance t w)
  | reachable_serve w userId r :
      reachable w → reachable (handle userId r w).2.

(** A run: the world after serving a list of requests in order. *)
Definition serve (w : World) (rs : list (string * Request)) : World :=
  foldl (λ w ur, (handle ur.1 ur.2 w).2) w rs.

(** * Specification vocabulary

    The notions the properties are stated in. *)

(** The unread counter [getUserChats] attaches to chat [chatId]. *)
Definition unread_of (d : DB) (userId chatId : string) : nat :=
  let lastRead :=
    head (filter (λ p, p_chatId p = chatId)
            (filter (λ p, p_userId p = userId) (chatParticipants d)))
      ≫= p_lastRead in
  length (filter (λ m, m_chatId m = chatId ∧ m_senderId m ≠ userId ∧
                       after_cursor lastRead m) (messages d)).

(** "[createdAt] strictly greater than the cursor [r]". *)
Definition newer_than (r : Z) (m : Message) : Prop :=
  ∃ t, m_createdAt m = Some t ∧ r < t.

#[global] Instance newer_than_dec r m : Decision (newer_than r m).
Proof.
  unfold newer_than. destruct (m_createdAt m) as [t|].
  - destruct (decide (r < t)); [left; eauto|right; intros (? & [= <-] & ?); lia].
  - right. by intros (? & ? & ?).
Defined.

(** Every chat and every message carries its creation time. Both columns
    default to [now()] and no INSERT of the server supplies them, so this
    holds of every database the server builds ([reachable_timestamped]). *)
Definition timestamped (d : DB) : Prop :=
  (∀ c, c ∈ chats d → is_Some (c_createdAt c)) ∧
  (∀ m, m ∈ messages d → is_Some (m_createdAt m)).

#[global] Instance timestamped_dec d : Decision (timestamped d).
Proof.
  refine (cast_if (decide (Forall (λ c, is_Some (c_createdAt c)) (chats d) ∧
                           Forall (λ m, is_Some (m_createdAt m)) (messages d))));
    unfold timestamped; by rewrite !Forall_forall in *.
Defined.



(** What [addChatParticipant] inserts. *)
Definition new_participant (w : World) (participant : InsertChatParticipant)
    : ChatParticipant :=
  mkChatParticipant (uuids w (drawn w)) (ip_chatId participant)
    (ip_userId participant) (default member (ip_role participant))
    (Some (clock w)) None.



(** The row [updateFriendshipStatus] writes over [f]. *)
Definition with_status (status : FriendStatus) (f : Friendship) : Friendship :=
  mkFriendship (f_id f) (f_userId f) (f_friendId f) status (f_createdAt f).

(** What every database built by the server satisfies: a Participation
    belongs to an existing chat; a private chat has no creator, at most two
    Participation rows, and all of them with role member; chats and messages
    carry their creation time. *)
Record consistent (d : DB) : Prop := mkConsistent {
  rows_have_chat :
    ∀ p, p ∈ chatParticipants d → ∃ c, c ∈ chats d ∧ c_id c = p_chatId p;
  private_rows_member :
    ∀ c p, c ∈ chats d → c_type c = private →
           p ∈ chatParticipants d → p_chatId p = c_id c → p_role p = member;
  private_at_most_two :
    ∀ c, c ∈ chats d → c_type c = private →
         (length (getChatParticipants d (c_id c)) ≤ 2)%nat;
  private_no_creator :
    ∀ c, c ∈ chats d → c_type c = private → c_createdBy c = None;
  all_timestamped : timestamped d }.

(** [hoare P m Q]: run on a database satisfying [P], the computation [m]
    either returns a value [a] and leaves a database satisfying [Q a], or
    throws and leaves a consistent database. *)
Definition hoare {A} (P : DB → Prop) (m : Async A) (Q : A → DB → Prop)
    : Prop :=
  ∀ w, P (db w) →
    match m w with
    | (Returned a, w') => Q a (db w')
    | (Thrown _, w') => consistent (db w')
    end.

(** A handler keeps the database consistent. *)
Definition keeps (h : World → Response * World) : Prop :=
  ∀ w, consistent (db w) → consistent (db (h w).2).

(** A consistent database in which chat [chatId] exists and no chat row
    with that id is private. *)
Definition open_chat (chatId : string) (d : DB) : Prop :=
  consistent d ∧
  (∃ c, c ∈ chats d ∧ c_id c = chatId) ∧
  (∀ c, c ∈ chats d → c_id c = chatId → c_type c ≠ private).

(** * Sample worlds

    Built by the handlers themselves from an empty database, with the
    identifiers [id-0], [id-1], ... *)

Definition demo_uuids (n : nat) : string := "id-" +:+ pretty n.
Definition demo_world : World := mkWorld empty_db 1000 demo_uuids 0.

(** alice opens the channel "news" (chat [id-0]) with bob as a member. *)
Definition demo_channel : World :=
  serve demo_world
    [("alice", PostGroups (mkCreateGroupBody "news" None (Some ["bob"])
                                             (Some channel)))].

(** ... and then makes bob an admin. *)
Definition demo_channel_two_admins : World :=
  serve demo_channel
    [("alice", PatchGroupMemberRole "id-0" "bob" (mkUpdateRoleBody admin))].

(** alice opens the group "team" (chat [id-0]) with bob as a member. *)
Definition demo_group : World :=
  serve demo_world
    [("alice", PostGroups (mkCreateGroupBody "team" None (Some ["bob"])
                                             None))].

(** alice opens a private chat (chat [id-0]) with bob. *)
Definition demo_private : World :=
  serve demo_world [("alice", PostChats (mkCreateChatBody "bob"))].

(** A well-formed message body. *)
Definition hello : SendMessageBody :=
  mkSendMessageBody "hello" None None None None.

(** In the private chat, bob writes twice and alice answers, a millisecond
    apart; alice then opens the group "team" (chat [id-6]). *)
Definition demo_talk : World :=
  let w1 := serve (advance 1001 demo_private)
              [("bob", PostChatMessages "id-0" hello)] in
  let w2 := serve (advance 1002 w1)
              [("bob", PostChatMessages "id-0" hello)] in
  let w3 := serve (advance 1003 w2)
              [("alice", PostChatMessages "id-0" hello)] in
  serve (advance 1004 w3)
    [("alice", PostGroups (mkCreateGroupBody "team" None None None))].

(** ... alice reads the private chat and bob writes once more. *)
Definition demo_talk_read : World :=
  let w1 := serve (advance 1005 demo_talk)
              [("alice", GetChatMessages "id-0")] in
  serve (advance 1006 w1) [("bob", PostChatMessages "id-0" hello)].

(** alice has asked bob to be her friend (friendship [id-0]). *)
Definition demo_friends : World :=
  serve demo_world [("alice", PostFriends (mkCreateFriendshipBody "bob"))].

(** * Further vocabulary *)

(** [chatId] names a private chat with exactly two Participation rows in
    which both users participate. *)
Definition private_chat_of (d : DB) (chatId userId1 userId2 : string)
    : Prop :=
  (∃ chat, getChat d chatId = Some chat ∧ c_type chat = private) ∧
  length (getChatParticipants d chatId) = 2%nat ∧
  is_Some (getChatParticipant d chatId userId1) ∧
  is_Some (getChatParticipant d chatId userId2).

(** The database POST /api/chats leaves when it creates a chat: the chat row
    and the two Participation rows, with the next three generated ids. *)
Definition with_private_chat (w : World) (userId otherId : string) : DB :=
  let id := uuids w (drawn w) in
  let t := Some (clock w) in
  mkDB (chats (db w) ++ [mkChat id private None None None None t t])
       (chatParticipants (db w) ++
          [mkChatParticipant (uuids w (S (drawn w))) id userId member t None;
           mkChatParticipant (uuids w (S (S (drawn w)))) id otherId member
                             t None])
       (messages (db w)) (friendships (db w)).

(** The generated ids POST /api/chats needs are free. *)
Definition fresh_for_private_chat (w : World) : Prop :=
  (uuids w (drawn w) ∉ c_id <$> chats (db w)) ∧
  (uuids w (S (drawn w)) ∉ p_id <$> chatParticipants (db w)) ∧
  (uuids w (S (S (drawn w))) ∉ p_id <$> chatParticipants (db w)) ∧
  uuids w (S (S (drawn w))) ≠ uuids w (S (drawn w)).

(** The [n] ids the database generates from the [first]-th on are pairwise
    distinct and none is the id of a Participation row. *)
Definition fresh_rows (w : World) (first n : nat) : Prop :=
  NoDup (uuids w <$> seq first n) ∧
  Forall (λ id, id ∉ p_id <$> chatParticipants (db w))
         (uuids w <$> seq first n).

(** The world after [n] more ids were drawn and the rows [new] inserted. *)
Definition after_rows (w : World) (new : list ChatParticipant) (n : nat)
    : World :=
  mkWorld (set_chatParticipants (db w) (chatParticipants (db w) ++ new))
          (clock w) (uuids w) (drawn w + n).

(** The rows POST /api/groups inserts for [memberIds], the first of them
    with the [first]-th generated id. *)
Definition member_rows (w : World) (chatId : string) (first : nat)
    (memberIds : list string) : list ChatParticipant :=
  imap (λ i memberId,
          mkChatParticipant (uuids w (first + i)) chatId memberId member
                            (Some (clock w)) None) memberIds.

(** The users the bulk add inserts a row for: those of [memberIds] that are
    not among the [present] ones, each once, in the order of the request. *)
Fixpoint to_add (present memberIds : list string) : list string :=
  match memberIds with
  | [] => []
  | memberId :: rest =>
      if decide (memberId ∈ present) then to_add present rest
      else memberId :: to_add (present ++ [memberId]) rest
  end.

(** The generated ids POST /api/groups needs for a chat with [n] listed
    members are free. *)
Definition fresh_for_group (w : World) (n : nat) : Prop :=
  (uuids w (drawn w) ∉ c_id <$> chats (db w)) ∧
  fresh_rows w (S (drawn w)) (S n).

(** What [createChat] inserts. *)
Definition new_chat (w : World) (chat : InsertChat) : Chat :=
  mkChat (uuids w (drawn w)) (ic_type chat) (ic_name chat)
         (ic_description chat) None (ic_createdBy chat)
         (Some (clock w)) (Some (clock w)).

(** The row [markMessagesAsRead] writes over [p] at time [t]. *)
Definition read_at (t : Z) (p : ChatParticipant) : ChatParticipant :=
  mkChatParticipant (p_id p) (p_chatId p) (p_userId p) (p_role p)
                    (p_joinedAt p) (Some t).

(** Message [a] was created no later than message [b]. *)
Definition not_after (a b : Message) : Prop :=
  ∃ ta tb, m_createdAt a = Some ta ∧ m_createdAt b = Some tb ∧ ta ≤ tb.




(** Friendship [f] is between users [a] and [b], whoever asked. *)
Definition between (f : Friendship) (a b : string) : Prop :=
  (f_userId f = a ∧ f_friendId f = b) ∨ (f_userId f = b ∧ f_friendId f = a).

(** The friendship POST /api/friends stores. *)
Definition requested (w : World) (userId friendId : string) : Friendship :=
  mkFriendship (uuids w (drawn w)) userId friendId pending (Some (clock w)).

(** [preserves I m]: whatever its outcome, the computation [m] leaves a
    database satisfying [I] when it starts from one. *)
Definition preserves {A} (I : DB → Prop) (m : Async A) : Prop :=
  ∀ w, I (db w) → I (db (m w).2).


(** Chat row [c'] is chat row [c] up to its name, description, icon and
    [updatedAt]. *)
Definition same_chat (c c' : Chat) : Prop :=
  c_id c' = c_id c ∧ c_type c' = c_type c ∧
  c_createdBy c' = c_createdBy c ∧ c_createdAt c' = c_createdAt c.


(** The messages of [d0] are all still there in [d], unchanged and in the
    same order, possibly followed by new ones. *)
Definition messages_kept (d0 d : DB) : Prop :=
  messages d0 `prefix_of` messages d.

(** [demo_talk], two milliseconds later. *)
Definition demo_talk_later : World := advance 1005 demo_talk.

(** The chat row PATCH /api/groups/:chatId writes over [c] at time [t]: the
    fields the body gives replace the chat's, the others stay. *)
Definition patched (t : Z) (b : UpdateGroupBody) (c : Chat) : Chat :=
  mkChat (c_id c) (c_type c)
         (or_else (ug_name b) (c_name c))
         (or_else (ug_description b) (c_description c))
         (or_else (ug_iconUrl b) (c_iconUrl c))
         (c_createdBy c) (c_createdAt c) (Some t).

(** [m] is a most recent message of chat [chatId]. *)
Definition latest_of (d : DB) (chatId : string) (m : Message) : Prop :=
  m ∈ messages d ∧ m_chatId m = chatId ∧
  ∀ m', m' ∈ messages d → m_chatId m' = chatId → not_after m' m.

(** * Properties *)

(** ** Sorting *)

Section sorting.
Context {A : Type} (cmp : A → A → Z).

Lemma sort_insert_Permutation x l : sort_insert cmp x l ≡ₚ x :: l.
Proof.
  induction l as [|y l IH]; simpl; [done|].
  case_decide; [done|].
  rewrite IH. apply Permutation_swap.
Qed.

Lemma Array_sort_Permutation l : Array_sort cmp l ≡ₚ l.
Proof.
  induction l as [|x l IH]; simpl; [done|].
  rewrite sort_insert_Permutation. by rewrite IH.
Qed.

Lemma elem_of_Array_sort x l : x ∈ Array_sort cmp l ↔ x ∈ l.
Proof. by rewrite Array_sort_Permutation. Qed.

(** The comparator is consistent: when it puts [y] before [x] it does not
    also put [x] before [y]. *)
Hypothesis cmp_total : ∀ x y, 0 < cmp x y → cmp y x ≤ 0.

Lemma Sorted_sort_insert x l :
  Sorted (λ a b, cmp a b ≤ 0) l →
  Sorted (λ a b, cmp a b ≤ 0) (sort_insert cmp x l).
Proof.
  induction 1 as [|y l Hl IH Hy]; simpl.
  - by repeat constructor.
  - case_decide as Hxy.
    + constructor; [by constructor|by constructor].
    + constructor; [done|].
      destruct Hy as [|z l' Hyz]; simpl.
      * constructor. apply cmp_total. lia.
      * case_decide; constructor; [apply cmp_total; lia|done].
Qed.

Lemma Sorted_Array_sort l : Sorted (λ a b, cmp a b ≤ 0) (Array_sort cmp l).
Proof.
  induction l as [|x l IH]; simpl; [constructor|].
  by apply Sorted_sort_insert.
Qed.
End sorting.

Lemma Sorted_impl {A} (R1 R2 : A → A → Prop) l :
  (∀ a b, a ∈ l → b ∈ l → R1 a b → R2 a b) → Sorted R1 l → Sorted R2 l.
Proof.
  intros HR. induction 1 as [|x l Hl IH Hx]; [constructor|].
  constructor.
  - apply IH. intros a b Ha Hb. apply HR; by right.
  - destruct Hx as [|y l' Hxy]; constructor.
    apply HR; [by left|right; by left|done].
Qed.

(** ** Reading the tables *)

Lemma first_row_elem_of {A} (P : A → Prop) `{∀ x, Decision (P x)} l x :
  first_row (filter P l) = Some x → P x ∧ x ∈ l.
Proof.
  intros Hx. apply head_Some_elem_of in Hx.
  by apply list_elem_of_filter in Hx.
Qed.

Lemma first_row_None {A} (P : A → Prop) `{∀ x, Decision (P x)} l :
  first_row (filter P l) = None ↔ ∀ x, x ∈ l → ¬ P x.
Proof.
  unfold first_row. rewrite head_None. split.
  - intros Hnil x Hx HP. by eapply filter_nil_not_elem_of.
  - intros Hno. apply elem_of_nil_inv. intros x [HP Hx]%list_elem_of_filter.
    by eapply Hno.
Qed.

Lemma getChat_Some d chatId c :
  getChat d chatId = Some c → c_id c = chatId ∧ c ∈ chats d.
Proof. intros Hc. by apply first_row_elem_of in Hc. Qed.

Lemma getChatParticipant_Some d chatId userId p :
  getChatParticipant d chatId userId = Some p →
  (p_chatId p = chatId ∧ p_userId p = userId) ∧ p ∈ chatParticipants d.
Proof. intros Hp. by apply first_row_elem_of in Hp. Qed.

Lemma getChatWithDetails_Some d chatId cwd :
  getChatWithDetails d chatId = Some cwd →
  getChat d chatId = Some (cd_chat cwd) ∧
  participants cwd = getChatParticipants d chatId ∧
  lastMessage cwd = head (getMessages d chatId 1).
Proof.
  unfold getChatWithDetails. destruct (getChat d chatId); [|done].
  by intros [= <-].
Qed.


(** ** The chat list of a user *)

Lemma elem_of_getUserChats d userId c :
  c ∈ getUserChats d userId ↔
  ∃ p cwd, p ∈ chatParticipants d ∧ p_userId p = userId ∧
           getChatWithDetails d (p_chatId p) = Some cwd ∧
           c = mkChatWithDetails (cd_chat cwd) (participants cwd)
                 (lastMessage cwd) (unread_of d userId (p_chatId p)).
Proof.
  unfold getUserChats. case_decide as Hlen.
  - rewrite length_fmap in Hlen. apply nil_length_inv in Hlen.
    rewrite elem_of_nil. split; [done|].
    intros (p & cwd & Hp & Hu & _).
    assert (p ∈ filter (λ p, p_userId p = userId) (chatParticipants d)) as Hin
      by by apply list_elem_of_filter.
    rewrite Hlen in Hin. by apply elem_of_nil in Hin.
  - rewrite elem_of_Array_sort, list_elem_of_omap. split.
    + intros (o & Ho & Hid). simpl in Hid. subst o.
      apply list_elem_of_fmap in Ho as (chatId & Hc & Hchat).
      apply list_elem_of_fmap in Hchat as (p & -> & Hp).
      apply list_elem_of_filter in Hp as [Hu Hp].
      destruct (getChatWithDetails d (p_chatId p)) as [cwd|] eqn:Hcwd; [|done].
      exists p, cwd. by injection Hc as ->.
    + intros (p & cwd & Hp & Hu & Hcwd & ->).
      eexists. split; [|reflexivity].
      apply list_elem_of_fmap. exists (p_chatId p). rewrite Hcwd. split; [done|].
      apply list_elem_of_fmap_2. by apply list_elem_of_filter.
Qed.

Lemma after_cursor_Some r m : after_cursor (Some r) m ↔ newer_than r m.
Proof.
  unfold after_cursor, newer_than. destruct (m_createdAt m) as [t|].
  - split; [eauto|]. by intros (? & [= <-] & ?).
  - split; [done|]. by intros (? & ? & ?).
Qed.

Lemma unread_of_cursor d userId chatId p :
  getChatParticipant d chatId userId = Some p →
  unread_of d userId chatId =
    match p_lastRead p with
    | Some r =>
        length (filter (λ m, m_chatId m = chatId ∧ m_senderId m ≠ userId ∧
                             newer_than r m) (messages d))
    | None =>
        length (filter (λ m, m_chatId m = chatId ∧ m_senderId m ≠ userId)
                       (messages d))
    end.
Proof.
  unfold getChatParticipant, unread_of, first_row. intros Hp.
  rewrite list_filter_filter, Hp. simpl.
  destruct (p_lastRead p) as [r|]; f_equal; apply list_filter_iff; intros m.
  - by rewrite after_cursor_Some.
  - unfold after_cursor. tauto.
Qed.

(** C5. In the chat list [getUserChats] returns for a user, every entry is a
    chat the user participates in, and its unread count is the number of
    messages of that chat that were sent by somebody else and whose
    [createdAt] is strictly greater than the user's read cursor for the chat;
    when the cursor is null it is the number of all messages of the chat not
    sent by the user. Conversely every existing chat the user participates in
    has such an entry. The cursor is the [lastRead] of the user's
    participation row for the chat (the first one, should there be
    several). *)
Theorem getUserChats_unreadCount (d : DB) (userId : string) :
  (∀ c, c ∈ getUserChats d userId →
     ∃ p, getChatParticipant d (c_id (cd_chat c)) userId = Some p ∧
          unreadCount c =
            match p_lastRead p with
            | Some r =>
                length (filter (λ m, m_chatId m = c_id (cd_chat c) ∧
                                     m_senderId m ≠ userId ∧
                                     newer_than r m) (messages d))
            | None =>
                length (filter (λ m, m_chatId m = c_id (cd_chat c) ∧
                                     m_senderId m ≠ userId) (messages d))
            end) ∧
  (∀ chatId chat p,
     getChat d chatId = Some chat →
     getChatParticipant d chatId userId = Some p →
     ∃ c, c ∈ getUserChats d userId ∧ cd_chat c = chat).
Proof.
  split.
  - intros c (p & cwd & Hp & Hu & Hcwd & ->)%elem_of_getUserChats. simpl.
    apply getChatWithDetails_Some in Hcwd as (Hchat & _).
    apply getChat_Some in Hchat as [-> _].
    destruct (getChatParticipant d (p_chatId p) userId) as [q|] eqn:Hq.
    + exists q. split; [done|]. by apply unread_of_cursor.
    + eapply first_row_None in Hq; [|done]. by destruct Hq.
  - intros chatId chat p Hchat Hp.
    apply getChatParticipant_Some in Hp as [[<- Hu] Hp].
    eexists. split.
    + apply elem_of_getUserChats. exists p. eexists.
      split; [done|]. split; [done|]. split; [|reflexivity].
      unfold getChatWithDetails. by rewrite Hchat.
    + done.
Qed.

Lemma getUserChats_unreadCount_witness :
  ∃ c, c ∈ getUserChats (db demo_talk) "alice" ∧
       cd_chat c = mkChat "id-0" private None None None None
                          (Some 1000) (Some 1003).
Proof.
  apply (proj2 (getUserChats_unreadCount (db demo_talk) "alice") "id-0"
           (mkChat "id-0" private None None None None (Some 1000) (Some 1003))
           (mkChatParticipant "id-1" "id-0" "alice" member (Some 1000) None)).
  - reflexivity.
  - reflexivity.
Defined.





(** The scenario of the specification: with a null cursor alice has the two
    messages of bob unread; once she has read the chat and bob has written
    again, she has one. The chat with the latest activity comes first. *)
Example getUserChats_demo_talk :
  (λ c, (c_id (cd_chat c), unreadCount c)) <$>
    getUserChats (db demo_talk) "alice" = [("id-6", 0%nat); ("id-0", 2%nat)].
Proof. reflexivity. Qed.

Example getUserChats_demo_talk_read :
  (λ c, (c_id (cd_chat c), unreadCount c)) <$>
    getUserChats (db demo_talk_read) "alice" =
    [("id-0", 1%nat); ("id-6", 0%nat)].
Proof. reflexivity. Qed.

(** ** Handlers, one request at a time *)

Ltac run :=
  unfold try_catch, status_json, json, query, execute, now, throw;
  unfold mbind, mret, Async_bind, Async_ret; simpl.

(** C6. In a channel, a well-formed post by a sender who has no
    Participation with role admin in that channel is answered 403 Forbidden
    and the message table is left as it was. *)
Theorem channel_post_requires_admin (w : World) (userId chatId : string)
    (b : SendMessageBody) (chat : Chat) :
  getChat (db w) chatId = Some chat →
  c_type chat = channel →
  sendMessageSchema b →
  (∀ p, p ∈ chatParticipants (db w) → p_chatId p = chatId →
        p_userId p = userId → p_role p ≠ admin) →
  status (POST_chat_messages userId chatId b w).1 = 403 ∧
  messages (db (POST_chat_messages userId chatId b w).2) = messages (db w).
Proof.
  intros Hchat Htype Hb Hrole.
  unfold POST_chat_messages. run.
  rewrite decide_True by done.
  unfold getChatWithDetails. rewrite Hchat. simpl.
  rewrite decide_True by done.
  rewrite decide_True; [done|].
  destruct (head _) as [p|] eqn:Hp; [|done]. simpl.
  apply head_Some_elem_of in Hp.
  apply list_elem_of_filter in Hp as [Hu Hp].
  apply list_elem_of_filter in Hp as [Hc Hp]. by apply Hrole.
Qed.

Lemma channel_post_requires_admin_witness :
  status (POST_chat_messages "bob" "id-0" hello demo_channel).1 = 403 ∧
  messages (db (POST_chat_messages "bob" "id-0" hello demo_channel).2) =
    messages (db demo_channel).
Proof.
  apply (channel_post_requires_admin demo_channel "bob" "id-0" hello
           (mkChat "id-0" channel (Some "news") None None (Some "alice")
                   (Some 1000) (Some 1000))).
  - reflexivity.
  - reflexivity.
  - unfold sendMessageSchema, length_between. simpl. lia.
  - intros p Hp. vm_compute in Hp.
    apply elem_of_cons in Hp as [->|Hp]; [intros _ Hu; discriminate Hu|].
    apply list_elem_of_singleton in Hp as ->. intros _ _ Hr. discriminate Hr.
Defined.

(** The removal handler on a chat that has a creator, aimed at the creator
    by somebody else. *)
Lemma DELETE_creator_by_other w userId chatId chat creator :
  getChat (db w) chatId = Some chat →
  c_createdBy chat = Some creator →
  userId ≠ creator →
  DELETE_group_member userId chatId creator w =
    (if decide (not_admin (getChatParticipant (db w) chatId userId))
     then mkResponse 403 (JError "Only admins can remove members")
     else mkResponse 400 (JError "Cannot remove the group creator"), w).
Proof.
  intros Hchat Hby Hne. unfold DELETE_group_member. run.
  rewrite Hchat, Hby. simpl.
  rewrite (decide_True (P := creator ≠ userId)) by done.
  case_decide; [done|]. by rewrite decide_True.
Qed.

(** C3 (as the code has it). When a caller other than the creator asks to
    remove the creator of a chat, the request is refused and the membership
    table is unchanged, the creator's row included; the answer is 403
    Forbidden when the caller holds no admin Participation in the chat and
    400 ("Cannot remove the group creator") when the caller is an admin. *)
Theorem remove_creator_by_other_refused (w : World)
    (userId chatId creator : string) (chat : Chat) :
  getChat (db w) chatId = Some chat →
  c_createdBy chat = Some creator →
  userId ≠ creator →
  status (DELETE_group_member userId chatId creator w).1 =
    (if decide (not_admin (getChatParticipant (db w) chatId userId))
     then 403 else 400) ∧
  chatParticipants (db (DELETE_group_member userId chatId creator w).2) =
    chatParticipants (db w).
Proof.
  intros Hchat Hby Hne.
  rewrite (DELETE_creator_by_other w userId chatId chat creator) by done.
  by case_decide.
Qed.

Lemma remove_creator_by_other_refused_witness :
  status (DELETE_group_member "bob" "id-0" "alice" demo_channel).1 = 403 ∧
  chatParticipants
    (db (DELETE_group_member "bob" "id-0" "alice" demo_channel).2) =
    chatParticipants (db demo_channel).
Proof.
  apply (remove_creator_by_other_refused demo_channel "bob" "id-0" "alice"
           (mkChat "id-0" channel (Some "news") None None (Some "alice")
                   (Some 1000) (Some 1000))).
  - reflexivity.
  - reflexivity.
  - discriminate.
Defined.

(** C3 fails as stated: bob, an admin of alice's channel, asks to remove
    alice, the creator; the answer is 400, not 403 Forbidden. *)
Lemma remove_creator_by_admin_is_400 :
  getChat (db demo_channel_two_admins) "id-0" ≫= c_createdBy = Some "alice" ∧
  "bob" ≠ "alice" ∧
  status (DELETE_group_member "bob" "id-0" "alice"
            demo_channel_two_admins).1 = 400 ∧
  status (DELETE_group_member "bob" "id-0" "alice"
            demo_channel_two_admins).1 ≠ 403.
Proof. vm_compute. repeat split; discriminate. Qed.

(** C8 (as the code has it). The creator of a chat cannot leave it through
    the removal request: a self-removal by the creator is answered 400
    ("Cannot remove the group creator") and nothing changes, so the
    creator's Participation rows stay. *)
Theorem creator_self_removal_refused (w : World) (chatId creator : string)
    (chat : Chat) :
  getChat (db w) chatId = Some chat →
  c_createdBy chat = Some creator →
  DELETE_group_member creator chatId creator w =
    (mkResponse 400 (JError "Cannot remove the group creator"), w).
Proof.
  intros Hchat Hby. unfold DELETE_group_member. run.
  rewrite Hchat, Hby. simpl.
  rewrite (decide_False (P := creator ≠ creator)) by (intros H; by apply H).
  by rewrite decide_True.
Qed.

Lemma creator_self_removal_refused_witness :
  DELETE_group_member "alice" "id-0" "alice" demo_group =
    (mkResponse 400 (JError "Cannot remove the group creator"), demo_group).
Proof.
  apply (creator_self_removal_refused demo_group "id-0" "alice"
           (mkChat "id-0" group (Some "team") None None (Some "alice")
                   (Some 1000) (Some 1000))).
  - reflexivity.
  - reflexivity.
Defined.

(** C8 fails as stated: alice, creator of the group, asks to remove herself;
    the request does not succeed and her Participation row is still there. *)
Lemma creator_self_removal_fails :
  getChat (db demo_group) "id-0" ≫= c_createdBy = Some "alice" ∧
  status (DELETE_group_member "alice" "id-0" "alice" demo_group).1 ≠ 200 ∧
  is_Some (getChatParticipant
             (db (DELETE_group_member "alice" "id-0" "alice" demo_group).2)
             "id-0" "alice").
Proof. vm_compute. repeat split; [discriminate|eauto]. Qed.

Lemma addChatParticipant_run w participant :
  addChatParticipant participant w =
    let w1 := mkWorld (db w) (clock w) (uuids w) (S (drawn w)) in
    if decide (uuids w (drawn w) ∈ p_id <$> chatParticipants (db w))
    then (Thrown "duplicate key value violates unique constraint", w1)
    else (Returned (new_participant w participant),
          set_db w1 (set_chatParticipants (db w)
             (chatParticipants (db w) ++ [new_participant w participant]))).
Proof.
  unfold addChatParticipant, gen_random_uuid, insert_returning. run.
  by case_decide.
Qed.

(** C7 (as the code has it). [addChatParticipant] never looks for an
    existing Participation of the pair (chatId, userId): whenever the row id
    the database generates is not taken, it returns the new row and appends
    it to the membership table, whether or not the pair is already there; it
    fails only on a row id that is already taken, and then the table is
    unchanged. *)
Theorem addChatParticipant_appends (w : World)
    (participant : InsertChatParticipant) :
  (uuids w (drawn w) ∉ p_id <$> chatParticipants (db w) →
   ∃ row,
     (addChatParticipant participant w).1 = Returned row ∧
     p_chatId row = ip_chatId participant ∧
     p_userId row = ip_userId participant ∧
     chatParticipants (db (addChatParticipant participant w).2) =
       chatParticipants (db w) ++ [row]) ∧
  (uuids w (drawn w) ∈ p_id <$> chatParticipants (db w) →
   (∃ e, (addChatParticipant participant w).1 = Thrown e) ∧
   chatParticipants (db (addChatParticipant participant w).2) =
     chatParticipants (db w)).
Proof.
  rewrite addChatParticipant_run. simpl. split; intros Hid.
  - rewrite decide_False by done. by eexists.
  - rewrite decide_True by done. eauto.
Qed.

Lemma addChatParticipant_appends_witness :
  ∃ row,
    (addChatParticipant (mkInsertChatParticipant "id-0" "bob" None)
                        demo_group).1 = Returned row ∧
    p_chatId row = "id-0" ∧ p_userId row = "bob" ∧
    chatParticipants
      (db (addChatParticipant (mkInsertChatParticipant "id-0" "bob" None)
                              demo_group).2) =
      chatParticipants (db demo_group) ++ [row].
Proof.
  apply (addChatParticipant_appends demo_group
           (mkInsertChatParticipant "id-0" "bob" None)).
  vm_compute. intros Hin.
  apply elem_of_cons in Hin as [Hin|Hin]; [discriminate Hin|].
  apply list_elem_of_singleton in Hin. discriminate Hin.
Defined.

(** C7 fails as stated: bob already participates in the group, and adding
    him again returns a row and leaves him with two Participations. *)
Lemma addChatParticipant_duplicate_pair :
  is_Some (getChatParticipant (db demo_group) "id-0" "bob") ∧
  (∃ row, (addChatParticipant (mkInsertChatParticipant "id-0" "bob" None)
                              demo_group).1 = Returned row) ∧
  length (filter (λ p, p_chatId p = "id-0" ∧ p_userId p = "bob")
            (chatParticipants
               (db (addChatParticipant
                      (mkInsertChatParticipant "id-0" "bob" None)
                      demo_group).2))) = 2%nat ∧
  chatParticipants
    (db (addChatParticipant (mkInsertChatParticipant "id-0" "bob" None)
                            demo_group).2) ≠
    chatParticipants (db demo_group).
Proof. vm_compute. repeat split; [eauto|eauto|discriminate]. Qed.






(** ** Friend requests *)

Lemma PATCH_friend_run w userId friendshipId b :
  updateFriendshipSchema b →
  PATCH_friend userId friendshipId b w =
    let d := set_friendships (db w)
               (update_where (λ f, f_id f = friendshipId)
                             (with_status (uf_status b))
                             (friendships (db w))) in
    (mkResponse 200
       (JFriendship (first_row (filter (λ f, f_id f = friendshipId)
                                       (friendships d)))),
     set_db w d).
Proof.
  intros Hb. unfold PATCH_friend, updateFriendshipStatus. run.
  by rewrite decide_True.
Qed.

Lemma elem_of_update_where {A} (P : A → Prop) `{∀ x, Decision (P x)}
    (f : A → A) rows x :
  x ∈ rows → P x → f x ∈ update_where P f rows.
Proof.
  intros Hx HP. unfold update_where.
  apply list_elem_of_fmap. exists x. by rewrite decide_True.
Qed.

(** C10. The friendship update never consults the caller: two callers
    issuing the same update on the same world get the same answer and leave
    the same world. In particular a caller who is neither side of a
    friendship can accept or reject it: the answer is 200 and the friendship
    row now carries the requested status. *)
Theorem friendship_update_ignores_caller (w : World) (friendshipId : string)
    (b : UpdateFriendshipBody) :
  (∀ caller1 caller2,
     PATCH_friend caller1 friendshipId b w =
     PATCH_friend caller2 friendshipId b w) ∧
  (∀ caller f,
     f ∈ friendships (db w) → f_id f = friendshipId →
     caller ≠ f_userId f → caller ≠ f_friendId f →
     updateFriendshipSchema b →
     status (PATCH_friend caller friendshipId b w).1 = 200 ∧
     with_status (uf_status b) f ∈
       friendships (db (PATCH_friend caller friendshipId b w).2)).
Proof.
  split; [done|].
  intros caller f Hf Hid _ _ Hb. rewrite PATCH_friend_run by done. simpl.
  split; [done|]. by apply elem_of_update_where.
Qed.

Lemma friendship_update_ignores_caller_witness :
  status (PATCH_friend "mallory" "id-0" (mkUpdateFriendshipBody accepted)
            demo_friends).1 = 200 ∧
  mkFriendship "id-0" "alice" "bob" accepted (Some 1000) ∈
    friendships (db (PATCH_friend "mallory" "id-0"
                       (mkUpdateFriendshipBody accepted) demo_friends).2).
Proof.
  apply (proj2 (friendship_update_ignores_caller demo_friends "id-0"
                  (mkUpdateFriendshipBody accepted))
           "mallory" (mkFriendship "id-0" "alice" "bob" pending (Some 1000))).
  - vm_compute. left.
  - reflexivity.
  - discriminate.
  - discriminate.
  - left. reflexivity.
Defined.

(** ** Runs of the server *)

Lemma reachable_serve_all w rs : reachable w → reachable (serve w rs).
Proof.
  revert w. induction rs as [|[userId r] rs IH]; intros w Hw; [done|].
  simpl. apply IH. by apply (reachable_serve w userId r).
Qed.

(** C1, evaluated on the code. alice creates a channel and makes bob an
    admin; bob then sets alice's role to member. The request is answered 200
    and, in the world it leaves, alice is still the creator and still a
    participant of the channel, with role member. *)
Theorem creator_demoted_by_other_admin :
  let demote :=
    PatchGroupMemberRole "id-0" "alice" (mkUpdateRoleBody member) in
  let w := (handle "bob" demote demo_channel_two_admins).2 in
  reachable demo_channel_two_admins ∧
  p_role <$> getChatParticipant (db demo_channel_two_admins) "id-0" "alice"
    = Some admin ∧
  status (handle "bob" demote demo_channel_two_admins).1 = 200 ∧
  (c_type <$> getChat (db w) "id-0" = Some channel ∧
   getChat (db w) "id-0" ≫= c_createdBy = Some "alice") ∧
  p_role <$> getChatParticipant (db w) "id-0" "alice" = Some member.
Proof.
  split; [|by vm_compute].
  unfold demo_channel_two_admins, demo_channel.
  do 2 apply reachable_serve_all. constructor.
Qed.

(** ** An invariant of the database *)

Section table_lemmas.
Context {A : Type}.
Implicit Types (P Q : A → Prop) (l : list A).

Lemma filter_none P `{∀ x, Decision (P x)} l :
  (∀ x, x ∈ l → ¬ P x) → filter P l = [].
Proof.
  intros Hno. apply elem_of_nil_inv.
  intros x [HP Hx]%list_elem_of_filter. by eapply Hno.
Qed.

Lemma elem_of_snoc l x y : x ∈ l ++ [y] ↔ x ∈ l ∨ x = y.
Proof. by rewrite elem_of_app, list_elem_of_singleton. Qed.

Lemma elem_of_delete_where P `{∀ x, Decision (P x)} l x :
  x ∈ delete_where P l ↔ ¬ P x ∧ x ∈ l.
Proof. unfold delete_where. by rewrite list_elem_of_filter. Qed.

Lemma length_filter_delete_where P Q
    `{∀ x, Decision (P x)} `{∀ x, Decision (Q x)} l :
  (length (filter Q (delete_where P l)) ≤ length (filter Q l))%nat.
Proof.
  unfold delete_where. induction l as [|x l IH]; [done|].
  rewrite !filter_cons.
  destruct (decide (¬ P x)), (decide (Q x)); simpl;
    rewrite ?filter_cons; try (destruct (decide (Q x)); [|done]);
    simpl; try done; lia.
Qed.

Lemma elem_of_update_where_inv P `{∀ x, Decision (P x)} (f : A → A) l y :
  y ∈ update_where P f l → ∃ x, x ∈ l ∧ (y = x ∨ (P x ∧ y = f x)).
Proof.
  unfold update_where. intros (x & -> & Hx)%list_elem_of_fmap.
  exists x. split; [done|]. case_decide; eauto.
Qed.

Lemma elem_of_update_where_image P `{∀ x, Decision (P x)} (f : A → A) l x :
  x ∈ l → (if decide (P x) then f x else x) ∈ update_where P f l.
Proof. intros Hx. unfold update_where. by apply list_elem_of_fmap_2'
  with (x := x). Qed.

Lemma length_filter_update_where P Q
    `{∀ x, Decision (P x)} `{∀ x, Decision (Q x)} (f : A → A) l :
  (∀ x, Q (f x) ↔ Q x) →
  length (filter Q (update_where P f l)) = length (filter Q l).
Proof.
  intros HQ. unfold update_where. induction l as [|x l IH]; [done|].
  rewrite fmap_cons, !filter_cons.
  assert (Q (if decide (P x) then f x else x) ↔ Q x) as Hx
    by (case_decide; [apply HQ|done]).
  destruct (decide (Q x)) as [Hq|Hq].
  - rewrite decide_True by by apply Hx. simpl. by rewrite IH.
  - rewrite decide_False by by rewrite Hx. done.
Qed.
End table_lemmas.

Lemma getChatParticipants_elem_of d chatId p :
  p ∈ getChatParticipants d chatId ↔
  p_chatId p = chatId ∧ p ∈ chatParticipants d.
Proof. unfold getChatParticipants. by rewrite list_elem_of_filter. Qed.

Lemma consistent_set_friendships d l :
  consistent d → consistent (set_friendships d l).
Proof. intros []. by constructor. Qed.

Lemma consistent_set_messages d l :
  consistent d → (∀ m, m ∈ l → is_Some (m_createdAt m)) →
  consistent (set_messages d l).
Proof. intros [? ? ? ? [? ?]] Hl. by constructor. Qed.

Lemma consistent_update_chats d P `{∀ c, Decision (P c)} f :
  consistent d →
  (∀ c, c_id (f c) = c_id c ∧ c_type (f c) = c_type c ∧
        c_createdBy (f c) = c_createdBy c ∧
        (is_Some (c_createdAt c) → is_Some (c_createdAt (f c)))) →
  consistent (set_chats d (update_where P f (chats d))).
Proof.
  intros [H1 H2 H3 H4 [H5 H6]] Hf.
  assert (∀ c', c' ∈ update_where P f (chats d) →
            ∃ c, c ∈ chats d ∧ c_id c' = c_id c ∧ c_type c' = c_type c ∧
                 c_createdBy c' = c_createdBy c ∧
                 (is_Some (c_createdAt c) → is_Some (c_createdAt c'))) as Hinv.
  { intros c' (c & Hc & [-> | [_ ->]])%elem_of_update_where_inv; exists c.
    - done.
    - split; [done|]. apply Hf. }
  constructor; simpl.
  - intros p Hp. destruct (H1 p Hp) as (c & Hc & Hid).
    eexists. split; [by apply elem_of_update_where_image|].
    case_decide; [|done]. by rewrite (proj1 (Hf c)).
  - intros c' p (c & Hc & Hid & Hty & _)%Hinv Hpriv Hp Hk.
    apply (H2 c p); congruence.
  - intros c' (c & Hc & Hid & Hty & _)%Hinv Hpriv.
    rewrite Hid. apply (H3 c); congruence.
  - intros c' (c & Hc & Hid & Hty & Hby & _)%Hinv Hpriv.
    rewrite Hby. apply (H4 c); congruence.
  - split; [|done].
    intros c' (c & Hc & _ & _ & _ & Hat)%Hinv. by apply Hat, H5.
Qed.

Lemma consistent_insert_chat d c :
  consistent d →
  c_id c ∉ c_id <$> chats d →
  is_Some (c_createdAt c) →
  (c_type c = private → c_createdBy c = None) →
  consistent (set_chats d (chats d ++ [c])).
Proof.
  intros [H1 H2 H3 H4 [H5 H6]] Hfresh Hat Hby.
  assert (∀ p, p ∈ chatParticipants d → p_chatId p ≠ c_id c) as Hrows.
  { intros p (c0 & Hc0 & Hid)%H1 Hk. apply Hfresh.
    rewrite <- Hk, <- Hid. by apply list_elem_of_fmap_2. }
  constructor; simpl.
  - intros p (c0 & Hc0 & Hid)%H1. exists c0. split; [|done].
    apply elem_of_app. by left.
  - intros c' p [Hc'| ->]%elem_of_snoc Hpriv Hp Hk.
    + by apply (H2 c' p).
    + by destruct (Hrows p Hp).
  - intros c' [Hc'| ->]%elem_of_snoc Hpriv.
    + by apply H3.
    + unfold getChatParticipants. simpl. rewrite filter_none; [simpl; lia|].
      intros p Hp. by apply Hrows.
  - intros c' [Hc'| ->]%elem_of_snoc Hpriv.
    + by apply H4.
    + by apply Hby.
  - split; [|done].
    intros c' [Hc'| ->]%elem_of_snoc; [by apply H5|done].
Qed.

Lemma consistent_delete_participants d P `{∀ p, Decision (P p)} :
  consistent d →
  consistent (set_chatParticipants d (delete_where P (chatParticipants d))).
Proof.
  intros [H1 H2 H3 H4 H5]. constructor; simpl; [| | |done|done].
  - intros p [_ Hp]%elem_of_delete_where. by apply H1.
  - intros c p Hc Hpriv [_ Hp]%elem_of_delete_where. by apply H2.
  - intros c Hc Hpriv. unfold getChatParticipants. simpl.
    etrans; [apply length_filter_delete_where|]. by apply H3.
Qed.

Lemma consistent_update_participants d P `{∀ p, Decision (P p)} f :
  consistent d →
  (∀ p, p_chatId (f p) = p_chatId p) →
  (∀ p c, p ∈ chatParticipants d → P p → c ∈ chats d →
          c_id c = p_chatId p → c_type c = private → p_role (f p) = member) →
  consistent (set_chatParticipants d (update_where P f (chatParticipants d))).
Proof.
  intros [H1 H2 H3 H4 H5] Hid Hrole. constructor; simpl; [| | |done|done].
  - intros p' (p & Hp & [-> | [_ ->]])%elem_of_update_where_inv.
    + by apply H1.
    + rewrite Hid. by apply H1.
  - intros c p' Hc Hpriv (p & Hp & [-> | [HP ->]])%elem_of_update_where_inv Hk.
    + by apply (H2 c p).
    + rewrite Hid in Hk. by apply (Hrole p c).
  - intros c Hc Hpriv. unfold getChatParticipants. simpl.
    rewrite length_filter_update_where; [by apply H3|].
    intros p. by rewrite Hid.
Qed.

Lemma consistent_insert_participant d p :
  consistent d →
  (∃ c, c ∈ chats d ∧ c_id c = p_chatId p) →
  (∀ c, c ∈ chats d → c_id c = p_chatId p → c_type c = private →
        p_role p = member ∧
        (length (getChatParticipants d (p_chatId p)) < 2)%nat) →
  consistent (set_chatParticipants d (chatParticipants d ++ [p])).
Proof.
  intros [H1 H2 H3 H4 H5] Hchat Hpriv. constructor; simpl; [| | |done|done].
  - intros p' [Hp'| ->]%elem_of_snoc; [by apply H1|done].
  - intros c p' Hc Hty [Hp'| ->]%elem_of_snoc Hk.
    + by apply (H2 c p').
    + by apply (Hpriv c).
  - intros c Hc Hty. unfold getChatParticipants. simpl.
    rewrite filter_app, length_app, filter_cons, filter_nil.
    case_decide as Hk; simpl.
    + destruct (Hpriv c Hc (eq_sym Hk) Hty) as [_ Hlt].
      rewrite Hk in Hlt. unfold getChatParticipants in Hlt. lia.
    + specialize (H3 c Hc Hty). unfold getChatParticipants in H3. lia.
Qed.

Lemma consistent_delete_chats d chatId :
  consistent d →
  (∀ p, p ∈ chatParticipants d → p_chatId p ≠ chatId) →
  consistent (set_chats d (delete_where (λ c, c_id c = chatId) (chats d))).
Proof.
  intros [H1 H2 H3 H4 [H5 H6]] Hrows. constructor; simpl.
  - intros p Hp. destruct (H1 p Hp) as (c & Hc & Hid). exists c.
    split; [|done]. apply elem_of_delete_where. split; [|done].
    rewrite Hid. by apply Hrows.
  - intros c p [_ Hc]%elem_of_delete_where. by apply H2.
  - intros c [_ Hc]%elem_of_delete_where. by apply H3.
  - intros c [_ Hc]%elem_of_delete_where. by apply H4.
  - split; [|done]. intros c [_ Hc]%elem_of_delete_where. by apply H5.
Qed.

(** ** A program logic for handlers *)

Section hoare_rules.
Context {A B : Type}.
Implicit Types (P : DB → Prop) (Q : A → DB → Prop) (R : B → DB → Prop).

Lemma hoare_bind P Q R (m : Async A) (f : A → Async B) :
  hoare P m Q → (∀ a, hoare (Q a) (f a) R) → hoare P (m ≫= f) R.
Proof.
  intros Hm Hf w HP. unfold mbind, Async_bind.
  specialize (Hm w HP). destruct (m w) as [[a|e] w']; [|done].
  by apply Hf.
Qed.

Lemma hoare_weaken P P' Q Q' (m : Async A) :
  (∀ d, P' d → P d) → (∀ a d, Q a d → Q' a d) →
  hoare P m Q → hoare P' m Q'.
Proof.
  intros HP HQ Hm w Hw. specialize (Hm w (HP _ Hw)).
  destruct (m w) as [[a|e] w']; [by apply HQ|done].
Qed.

Lemma hoare_ret P Q (a : A) : (∀ d, P d → Q a d) → hoare P (mret a) Q.
Proof. intros HQ w Hw. by apply HQ. Qed.

Lemma hoare_query P (f : DB → A) :
  hoare P (query f) (λ a d, P d ∧ a = f d).
Proof. by intros w Hw. Qed.
End hoare_rules.

Lemma hoare_now P : hoare P now (λ _, P).
Proof. by intros w Hw. Qed.

Lemma hoare_gen_random_uuid P : hoare P gen_random_uuid (λ _, P).
Proof. by intros w Hw. Qed.

Lemma hoare_execute P (f : DB → DB) Q :
  (∀ d, P d → Q tt (f d)) → hoare P (execute f) Q.
Proof. intros HQ w Hw. by apply HQ. Qed.

Lemma hoare_insert_returning {A} P (table : DB → list A) key store row Q :
  (∀ d, P d → consistent d) →
  (∀ d, P d → key row ∉ key <$> table d → Q row (store d (table d ++ [row]))) →
  hoare P (insert_returning table key store row) Q.
Proof.
  intros HP HQ w Hw. unfold insert_returning.
  case_decide; simpl; [by apply HP|by apply HQ].
Qed.

Lemma hoare_for_of {A} (I : DB → Prop) (l : list A) body :
  (∀ x, hoare I (body x) (λ _, I)) → hoare I (for_of l body) (λ _, I).
Proof.
  intros Hbody. induction l as [|x l IH]; simpl.
  - by apply hoare_ret.
  - eapply hoare_bind; [apply Hbody|]. intros ?. apply IH.
Qed.

Lemma hoare_status_json P s message :
  hoare P (status_json s message) (λ _, P).
Proof. by apply hoare_ret. Qed.

Lemma hoare_json P b : hoare P (json b) (λ _, P).
Proof. by apply hoare_ret. Qed.

Lemma try_catch_keeps h message :
  hoare consistent h (λ _, consistent) → keeps (try_catch h message).
Proof.
  intros Hh w Hw. unfold try_catch. specialize (Hh w Hw).
  by destruct (h w) as [[r|e] w'].
Qed.

Lemma hoare_createChat chat :
  (ic_type chat = private → ic_createdBy chat = None) →
  hoare consistent (createChat chat)
    (λ c d, consistent d ∧ c ∈ chats d ∧ c_type c = ic_type chat ∧
            (∀ c', c' ∈ chats d → c_id c' = c_id c → c' = c) ∧
            getChatParticipants d (c_id c) = []).
Proof.
  intros Hby. unfold createChat.
  eapply hoare_bind; [apply hoare_gen_random_uuid|]. intros id.
  eapply hoare_bind; [apply hoare_now|]. intros t.
  apply hoare_insert_returning; [done|]. simpl.
  intros d Hd Hfresh.
  assert (consistent (set_chats d (chats d ++
            [mkChat id (ic_type chat) (ic_name chat) (ic_description chat)
                    None (ic_createdBy chat) (Some t) (Some t)]))) as Hd'
    by by apply consistent_insert_chat.
  split; [done|]. simpl.
  split; [apply elem_of_snoc; by right|]. split; [done|]. split.
  - intros c' [Hc'| ->]%elem_of_snoc Hid; [|done].
    destruct Hfresh. rewrite <- Hid. by apply list_elem_of_fmap_2.
  - apply filter_none. intros p Hp Hid.
    destruct (rows_have_chat d Hd p Hp) as (c & Hc & Hcid).
    apply Hfresh. simpl in Hid. rewrite <- Hid, <- Hcid. by apply list_elem_of_fmap_2.
Qed.

Lemma hoare_addChatParticipant participant P Q :
  (∀ d, P d → consistent d) →
  (∀ d row, P d →
     p_chatId row = ip_chatId participant →
     p_userId row = ip_userId participant →
     p_role row = default member (ip_role participant) →
     Q row (set_chatParticipants d (chatParticipants d ++ [row]))) →
  hoare P (addChatParticipant participant) Q.
Proof.
  intros HP HQ. unfold addChatParticipant.
  eapply hoare_bind; [apply hoare_gen_random_uuid|]. intros id.
  eapply hoare_bind; [apply hoare_now|]. intros t.
  apply hoare_insert_returning; [done|].
  intros d Hd _. by apply HQ.
Qed.

Lemma hoare_addChatParticipant_open participant :
  hoare (open_chat (ip_chatId participant)) (addChatParticipant participant)
        (λ _, open_chat (ip_chatId participant)).
Proof.
  apply hoare_addChatParticipant; [by intros d []|].
  intros d row (Hd & Hex & Hopen) Hk _ _. split; [|done].
  apply consistent_insert_participant; [done|by rewrite Hk|].
  intros c Hc Hid Hpriv. rewrite Hk in Hid. by destruct (Hopen c Hc Hid).
Qed.

Lemma hoare_query_keep {A} P (f : DB → A) : hoare P (query f) (λ _, P).
Proof. by intros w Hw. Qed.

Lemma hoare_reply P (r : Async Response) :
  (∃ s b, r = mret (mkResponse s b)) → hoare P r (λ _, P).
Proof. intros (s & b & ->). by apply hoare_ret. Qed.

Ltac reply := apply hoare_reply; unfold json, status_json; eauto.

Lemma not_not_admin participant :
  ¬ not_admin participant → ∃ p, participant = Some p ∧ p_role p = admin.
Proof.
  destruct participant as [p|]; simpl; [|by intros []].
  intros Hp. exists p. split; [done|]. by destruct (p_role p); [|destruct Hp].
Qed.

Lemma admin_open_chat d chatId userId :
  consistent d → ¬ not_admin (getChatParticipant d chatId userId) →
  open_chat chatId d.
Proof.
  intros Hd (p & Hp & Hadmin)%not_not_admin.
  apply getChatParticipant_Some in Hp as [[Hk _] Hp].
  split; [done|]. split.
  - rewrite <- Hk. by apply (rows_have_chat d Hd).
  - intros c Hc Hid Hpriv.
    assert (p_role p = member) as Hm
      by (apply (private_rows_member d Hd c p); congruence).
    congruence.
Qed.

Lemma GET_chats_keeps userId : keeps (GET_chats userId).
Proof.
  apply try_catch_keeps.
  eapply hoare_bind; [apply hoare_query_keep|]. intros ?. reply.
Qed.

Lemma GET_chat_keeps userId chatId : keeps (GET_chat userId chatId).
Proof.
  apply try_catch_keeps.
  eapply hoare_bind; [apply hoare_query_keep|]. intros [?|]; reply.
Qed.

Lemma GET_friends_keeps userId : keeps (GET_friends userId).
Proof.
  apply try_catch_keeps.
  eapply hoare_bind; [apply hoare_query_keep|]. intros ?. reply.
Qed.

Lemma GET_friends_requests_keeps userId : keeps (GET_friends_requests userId).
Proof.
  apply try_catch_keeps.
  eapply hoare_bind; [apply hoare_query_keep|]. intros ?. reply.
Qed.

Lemma POST_chats_keeps userId b : keeps (POST_chats userId b).
Proof.
  apply try_catch_keeps. case_decide; [|reply].
  eapply hoare_bind; [apply hoare_query_keep|]. intros [existing|].
  { eapply hoare_bind; [apply hoare_query_keep|]. intros ?. reply. }
  eapply hoare_bind; [by apply hoare_createChat|]. intros c. simpl.
  eapply hoare_bind.
  { apply hoare_addChatParticipant with
      (Q := λ _ d, consistent d ∧ c ∈ chats d ∧
                   length (getChatParticipants d (c_id c)) = 1%nat).
    - by intros d [].
    - simpl. intros d row (Hd & Hc & Hty & _ & Hnil) Hk _ Hrole.
      split; [|split; [done|]].
      + apply consistent_insert_participant; [done|by exists c|].
        intros _ _ _ _. rewrite Hk, Hnil. split; [done|simpl; lia].
      + unfold getChatParticipants in *. simpl.
        rewrite filter_app, Hnil, filter_cons, decide_True by done. done. }
  intros ?.
  eapply hoare_bind.
  { apply hoare_addChatParticipant with (Q := λ _, consistent).
    - by intros d [].
    - simpl. intros d row (Hd & Hc & Hone) Hk _ Hrole.
      apply consistent_insert_participant; [done|by exists c|].
      intros _ _ _ _. rewrite Hk, Hone. split; [done|lia]. }
  intros ?.
  eapply hoare_bind; [apply hoare_query_keep|]. intros ?. reply.
Qed.

Lemma POST_groups_keeps userId b : keeps (POST_groups userId b).
Proof.
  apply try_catch_keeps. case_decide as Hb; [|reply].
  destruct Hb as (_ & _ & Hty).
  eapply hoare_bind.
  { apply hoare_createChat. simpl. intros Hpriv.
    destruct (cg_type b) as [t|]; simpl in *; [|done].
    destruct Hty; congruence. }
  intros c. simpl.
  apply hoare_weaken with (P := open_chat (c_id c)) (Q := λ _, consistent);
    [|done|].
  { intros d (Hd & Hc & Hct & Huniq & _). split; [done|]. split; [by exists c|].
    intros c' Hc' Hid Hpriv. rewrite (Huniq c' Hc' Hid) in Hpriv.
    destruct (cg_type b) as [t|]; simpl in *; [|congruence].
    destruct Hty; congruence. }
  eapply hoare_bind;
    [apply (hoare_addChatParticipant_open
              (mkInsertChatParticipant (c_id c) userId (Some admin)))|].
  intros ?. simpl.
  eapply hoare_bind.
  { apply hoare_for_of. intros memberId.
    eapply hoare_bind;
      [apply (hoare_addChatParticipant_open
                (mkInsertChatParticipant (c_id c) memberId (Some member)))|].
    intros ?. by apply hoare_ret. }
  intros ?.
  eapply hoare_bind; [apply hoare_query_keep|]. intros ?.
  apply hoare_ret. by intros d [].
Qed.

Lemma hoare_markMessagesAsRead chatId userId :
  hoare consistent (markMessagesAsRead chatId userId) (λ _, consistent).
Proof.
  unfold markMessagesAsRead.
  eapply hoare_bind; [apply hoare_now|]. intros t.
  apply hoare_execute. intros d Hd.
  apply consistent_update_participants; [done|done|]. simpl.
  intros p c Hp _ Hc Hid Hpriv. by apply (private_rows_member d Hd c p).
Qed.

Lemma GET_chat_messages_keeps userId chatId :
  keeps (GET_chat_messages userId chatId).
Proof.
  apply try_catch_keeps.
  eapply hoare_bind; [apply hoare_markMessagesAsRead|]. intros ?.
  eapply hoare_bind; [apply hoare_query_keep|]. intros ?. reply.
Qed.

Lemma hoare_createMessage message :
  hoare consistent (createMessage message) (λ _, consistent).
Proof.
  unfold createMessage.
  eapply hoare_bind; [apply hoare_gen_random_uuid|]. intros id.
  eapply hoare_bind; [apply hoare_now|]. intros t.
  eapply hoare_bind.
  { apply hoare_insert_returning with (Q := λ _, consistent); [done|].
    intros d Hd _. apply consistent_set_messages; [done|].
    intros m [Hm| ->]%elem_of_snoc; [|done].
    by apply (all_timestamped d Hd). }
  intros created.
  eapply hoare_bind; [apply hoare_now|]. intros t'.
  eapply (hoare_bind _ (λ _, consistent)); [|intros ?; by apply hoare_ret].
  apply hoare_execute. intros d Hd.
  by apply consistent_update_chats.
Qed.

Lemma POST_chat_messages_keeps userId chatId b :
  keeps (POST_chat_messages userId chatId b).
Proof.
  apply try_catch_keeps. case_decide; [|reply].
  eapply hoare_bind; [apply hoare_query_keep|].
  assert (∀ m, hoare consistent
            (message ← createMessage m; json (JMessage message))
            (λ _, consistent)) as Hsend.
  { intros m. eapply hoare_bind; [apply hoare_createMessage|]. intros ?. reply. }
  intros [c|]; cbv zeta; [|apply Hsend].
  case_decide; [|apply Hsend]. case_decide; [reply|apply Hsend].
Qed.

Lemma hoare_updateChat chatId data :
  hoare consistent (updateChat chatId data) (λ _, consistent).
Proof.
  unfold updateChat.
  eapply hoare_bind; [apply hoare_now|]. intros t.
  eapply hoare_bind; [|intros ?; apply hoare_query_keep].
  apply hoare_execute. intros d Hd.
  by apply consistent_update_chats.
Qed.

Lemma PATCH_group_keeps userId chatId b : keeps (PATCH_group userId chatId b).
Proof.
  apply try_catch_keeps. case_decide; [|reply].
  eapply hoare_bind; [apply hoare_query_keep|]. intros participant.
  case_decide; [reply|].
  eapply hoare_bind; [apply hoare_updateChat|]. intros ?. reply.
Qed.

Lemma hoare_deleteChat chatId :
  hoare consistent (deleteChat chatId) (λ _, consistent).
Proof.
  unfold deleteChat.
  eapply hoare_bind.
  { apply hoare_execute with (Q := λ _, consistent). intros d Hd.
    apply consistent_set_messages; [done|].
    intros m [_ Hm]%elem_of_delete_where. by apply (all_timestamped d Hd). }
  intros ?.
  eapply hoare_bind.
  { apply hoare_execute with
      (Q := λ _ d, consistent d ∧
                   ∀ p, p ∈ chatParticipants d → p_chatId p ≠ chatId).
    intros d Hd. split; [by apply consistent_delete_participants|].
    simpl. by intros p [Hp _]%elem_of_delete_where. }
  intros ?. apply hoare_execute. intros d [Hd Hrows].
  by apply consistent_delete_chats.
Qed.

Lemma DELETE_group_keeps userId chatId : keeps (DELETE_group userId chatId).
Proof.
  apply try_catch_keeps.
  eapply hoare_bind; [apply hoare_query_keep|]. intros [chat|]; [|reply].
  case_decide; [reply|].
  eapply hoare_bind; [apply hoare_deleteChat|]. intros ?. reply.
Qed.

Lemma POST_group_members_keeps userId chatId b :
  keeps (POST_group_members userId chatId b).
Proof.
  apply try_catch_keeps. case_decide; [|reply].
  eapply hoare_bind; [apply hoare_query|]. intros participant. simpl.
  case_decide as Hadmin; [apply hoare_ret; by intros d []|].
  apply hoare_weaken with (P := open_chat chatId) (Q := λ _, consistent);
    [|done|].
  { intros d [Hd ->]. by eapply admin_open_chat. }
  eapply hoare_bind.
  { apply hoare_for_of. intros memberId.
    eapply hoare_bind; [apply hoare_query_keep|]. intros [existing|].
    - by apply hoare_ret.
    - eapply hoare_bind;
        [apply (hoare_addChatParticipant_open
                  (mkInsertChatParticipant chatId memberId (Some member)))|].
      intros ?. by apply hoare_ret. }
  intros ?.
  eapply hoare_bind; [apply hoare_query_keep|]. intros ?.
  apply hoare_ret. by intros d [].
Qed.

Lemma hoare_removeChatParticipant chatId userId :
  hoare consistent (removeChatParticipant chatId userId) (λ _, consistent).
Proof.
  apply hoare_execute. intros d Hd. by apply consistent_delete_participants.
Qed.

Lemma DELETE_group_member_keeps userId chatId memberId :
  keeps (DELETE_group_member userId chatId memberId).
Proof.
  apply try_catch_keeps.
  eapply hoare_bind; [apply hoare_query_keep|]. intros [chat|]; [|reply].
  assert (hoare consistent
            (if decide (Some memberId = c_createdBy chat)
             then status_json 400 "Cannot remove the group creator"
             else removeChatParticipant chatId memberId;; json JSuccess)
            (λ _, consistent)) as Hremove.
  { case_decide; [reply|].
    eapply hoare_bind; [apply hoare_removeChatParticipant|]. intros ?. reply. }
  cbv zeta. destruct (decide (memberId ≠ userId)); [|apply Hremove].
  eapply hoare_bind; [apply hoare_query_keep|]. intros participant.
  destruct (decide (not_admin participant)); [reply|apply Hremove].
Qed.

Lemma PATCH_group_member_role_keeps userId chatId memberId b :
  keeps (PATCH_group_member_role userId chatId memberId b).
Proof.
  apply try_catch_keeps.
  eapply hoare_bind; [apply hoare_query|]. intros participant. simpl.
  case_decide as Hadmin; [apply hoare_ret; by intros d []|].
  apply hoare_weaken with (P := open_chat chatId) (Q := λ _, consistent);
    [|done|].
  { intros d [Hd ->]. by eapply admin_open_chat. }
  eapply hoare_bind; [|intros ?; reply].
  unfold updateParticipantRole.
  eapply hoare_bind; [|intros ?; apply hoare_query_keep].
  apply hoare_execute. intros d (Hd & _ & Hopen).
  apply consistent_update_participants; [done|done|]. simpl.
  intros p c _ [Hk _] Hc Hid Hpriv. destruct (Hopen c Hc); congruence.
Qed.

Lemma POST_friends_keeps userId b : keeps (POST_friends userId b).
Proof.
  apply try_catch_keeps. case_decide; [|reply].
  eapply hoare_bind; [apply hoare_query_keep|]. intros [existing|]; [reply|].
  eapply hoare_bind; [|intros ?; reply].
  unfold createFriendship.
  eapply hoare_bind; [apply hoare_gen_random_uuid|]. intros id.
  eapply hoare_bind; [apply hoare_now|]. intros t.
  apply hoare_insert_returning; [done|].
  intros d Hd _. by apply consistent_set_friendships.
Qed.

Lemma PATCH_friend_keeps userId friendshipId b :
  keeps (PATCH_friend userId friendshipId b).
Proof.
  apply try_catch_keeps. case_decide; [|reply].
  eapply hoare_bind; [|intros ?; reply].
  unfold updateFriendshipStatus.
  eapply hoare_bind; [|intros ?; apply hoare_query_keep].
  apply hoare_execute. intros d Hd. by apply consistent_set_friendships.
Qed.

Lemma handle_keeps userId r : keeps (handle userId r).
Proof.
  destruct r; simpl.
  - apply GET_chats_keeps.
  - apply GET_chat_keeps.
  - apply POST_chats_keeps.
  - apply POST_groups_keeps.
  - apply GET_chat_messages_keeps.
  - apply POST_chat_messages_keeps.
  - apply PATCH_group_keeps.
  - apply DELETE_group_keeps.
  - apply POST_group_members_keeps.
  - apply DELETE_group_member_keeps.
  - apply PATCH_group_member_role_keeps.
  - apply GET_friends_keeps.
  - apply GET_friends_requests_keeps.
  - apply POST_friends_keeps.
  - apply PATCH_friend_keeps.
Qed.

Lemma consistent_empty_db : consistent empty_db.
Proof.
  constructor; simpl; try (intros ? ? ?%elem_of_nil; done);
    try (intros ? ?%elem_of_nil; done).
  split; by intros ? ?%elem_of_nil.
Qed.

Lemma reachable_consistent w : reachable w → consistent (db w).
Proof.
  induction 1 as [t ids|w t Hw IH Ht|w userId r Hw IH].
  - apply consistent_empty_db.
  - done.
  - by apply handle_keeps.
Qed.

Lemma reachable_timestamped w : reachable w → timestamped (db w).
Proof. intros Hw. by apply all_timestamped, reachable_consistent. Qed.

(** ** Private chats *)

Lemma private_chat_no_admin d chatId chat userId :
  consistent d → getChat d chatId = Some chat → c_type chat = private →
  not_admin (getChatParticipant d chatId userId).
Proof.
  intros Hd [Hid Hchat]%getChat_Some Hpriv.
  destruct (getChatParticipant d chatId userId) as [p|] eqn:Hp; [|done].
  apply getChatParticipant_Some in Hp as [[Hk _] Hp]. simpl.
  rewrite (private_rows_member d Hd chat p); [done..|congruence].
Qed.

Lemma POST_chats_creates w userId b :
  consistent (db w) →
  createChatSchema b →
  getPrivateChatBetweenUsers (db w) userId (participantId b) = None →
  uuids w (drawn w) ∉ c_id <$> chats (db w) →
  uuids w (S (drawn w)) ∉ p_id <$> chatParticipants (db w) →
  uuids w (S (S (drawn w))) ∉ p_id <$> chatParticipants (db w) →
  uuids w (S (S (drawn w))) ≠ uuids w (S (drawn w)) →
  status (POST_chats userId b w).1 = 200 ∧
  c_type <$> getChat (db (POST_chats userId b w).2) (uuids w (drawn w)) =
    Some private ∧
  p_userId <$> getChatParticipants (db (POST_chats userId b w).2)
                 (uuids w (drawn w)) = [userId; participantId b].
Proof.
  intros Hd Hb Hnone Hc Hp1 Hp2 Hne.
  assert (filter (λ p, p_chatId p = uuids w (drawn w))
                 (chatParticipants (db w)) = []) as Hrows.
  { apply filter_none. intros p Hp Hk.
    destruct (rows_have_chat _ Hd p Hp) as (c & Hin & Hid).
    apply Hc. rewrite <- Hk, <- Hid. by apply list_elem_of_fmap_2. }
  assert (filter (λ c, c_id c = uuids w (drawn w)) (chats (db w)) = [])
    as Hchats.
  { apply filter_none. intros c Hin Hid. apply Hc. rewrite <- Hid.
    by apply list_elem_of_fmap_2. }
  unfold POST_chats. run. rewrite decide_True by done. rewrite Hnone.
  unfold createChat, addChatParticipant, gen_random_uuid, insert_returning.
  run. rewrite decide_False by done. simpl.
  rewrite decide_False by done. simpl.
  rewrite decide_False; simpl.
  - unfold getChatWithDetails, getChat, getChatParticipants. simpl.
    rewrite !filter_app, Hchats, Hrows. simpl.
    unfold filter. simpl. by rewrite !decide_True by done.
  - rewrite fmap_app. intros [Hin|Hin%list_elem_of_singleton]%elem_of_app;
      [by apply Hp2|by apply Hne].
Qed.

Lemma private_chat_requests w chatId chat :
  consistent (db w) →
  getChat (db w) chatId = Some chat →
  c_type chat = private →
  (length (getChatParticipants (db w) chatId) ≤ 2)%nat ∧
  (∀ userId b, addMembersSchema b →
     POST_group_members userId chatId b w =
       (mkResponse 403 (JError "Only admins can add members"), w)) ∧
  (∀ userId memberId b,
     PATCH_group_member_role userId chatId memberId b w =
       (mkResponse 403 (JError "Only admins can change roles"), w)) ∧
  (∀ userId memberId, memberId ≠ userId →
     DELETE_group_member userId chatId memberId w =
       (mkResponse 403 (JError "Only admins can remove members"), w)) ∧
  (∀ userId,
     status (DELETE_group_member userId chatId userId w).1 = 200 ∧
     getChatParticipants (db (DELETE_group_member userId chatId userId w).2)
                         chatId =
       filter (λ p, p_userId p ≠ userId)
              (getChatParticipants (db w) chatId)).
Proof.
  intros Hd Hchat Hpriv.
  pose proof (private_chat_no_admin (db w) chatId chat) as Hno.
  destruct (getChat_Some _ _ _ Hchat) as [Hid Hin].
  split; [|split; [|split; [|split]]].
  - rewrite <- Hid. by apply (private_at_most_two _ Hd).
  - intros userId b Hb. unfold POST_group_members. run.
    rewrite decide_True by done. by rewrite decide_True by by apply Hno.
  - intros userId memberId b. unfold PATCH_group_member_role. run.
    by rewrite decide_True by by apply Hno.
  - intros userId memberId Hne. unfold DELETE_group_member. run.
    rewrite Hchat. simpl. rewrite decide_True by done.
    by rewrite decide_True by by apply Hno.
  - intros userId. unfold DELETE_group_member. run. rewrite Hchat. simpl.
    rewrite (decide_False (P := userId ≠ userId)) by (intros H; by apply H).
    rewrite (private_no_creator _ Hd chat Hin Hpriv).
    rewrite decide_False by done. simpl. split; [done|].
    unfold getChatParticipants, delete_where. simpl.
    rewrite !list_filter_filter. apply list_filter_iff. intros p.
    split.
    + intros [Hk Hnot]. split; [|done]. intros Hu. by apply Hnot.
    + intros [Hu Hk]. split; [done|]. by intros [_ ?].
Qed.

(** C4 (as the code has it). In every world the server can reach: a private
    chat created by POST /api/chats (no chat between the two users yet, fresh
    generated ids) starts with exactly two Participation rows, the caller's
    and the other user's; a private chat never has more than two rows; a
    request to add members to it, to change a role in it, or to remove
    somebody else from it is answered 403 and changes nothing; but a
    participant's request to remove themself is answered 200 and deletes
    that participant's rows, leaving only the rows of the others. *)
Theorem private_chat_membership :
  (∀ w userId b,
     reachable w →
     createChatSchema b →
     getPrivateChatBetweenUsers (db w) userId (participantId b) = None →
     uuids w (drawn w) ∉ c_id <$> chats (db w) →
     uuids w (S (drawn w)) ∉ p_id <$> chatParticipants (db w) →
     uuids w (S (S (drawn w))) ∉ p_id <$> chatParticipants (db w) →
     uuids w (S (S (drawn w))) ≠ uuids w (S (drawn w)) →
     status (POST_chats userId b w).1 = 200 ∧
     c_type <$> getChat (db (POST_chats userId b w).2) (uuids w (drawn w)) =
       Some private ∧
     p_userId <$> getChatParticipants (db (POST_chats userId b w).2)
                    (uuids w (drawn w)) = [userId; participantId b]) ∧
  (∀ w chatId chat,
     reachable w →
     getChat (db w) chatId = Some chat →
     c_type chat = private →
     (length (getChatParticipants (db w) chatId) ≤ 2)%nat ∧
     (∀ userId b, addMembersSchema b →
        POST_group_members userId chatId b w =
          (mkResponse 403 (JError "Only admins can add members"), w)) ∧
     (∀ userId memberId b,
        PATCH_group_member_role userId chatId memberId b w =
          (mkResponse 403 (JError "Only admins can change roles"), w)) ∧
     (∀ userId memberId, memberId ≠ userId →
        DELETE_group_member userId chatId memberId w =
          (mkResponse 403 (JError "Only admins can remove members"), w)) ∧
     (∀ userId,
        status (DELETE_group_member userId chatId userId w).1 = 200 ∧
        getChatParticipants
          (db (DELETE_group_member userId chatId userId w).2) chatId =
          filter (λ p, p_userId p ≠ userId)
                 (getChatParticipants (db w) chatId))).
Proof.
  split.
  - intros w userId b Hw. by apply POST_chats_creates, reachable_consistent.
  - intros w chatId chat Hw.
    by apply private_chat_requests, reachable_consistent.
Qed.

Lemma private_chat_membership_witness :
  (status (POST_chats "alice" (mkCreateChatBody "bob") demo_world).1 = 200 ∧
   c_type <$> getChat (db demo_private) "id-0" = Some private ∧
   p_userId <$> getChatParticipants (db demo_private) "id-0" =
     ["alice"; "bob"]) ∧
  DELETE_group_member "bob" "id-0" "alice" demo_private =
    (mkResponse 403 (JError "Only admins can remove members"), demo_private).
Proof.
  split.
  - apply (proj1 private_chat_membership demo_world "alice"
             (mkCreateChatBody "bob")).
    + constructor.
    + unfold createChatSchema. simpl. lia.
    + reflexivity.
    + vm_compute. intros Hin. by apply elem_of_nil in Hin.
    + vm_compute. intros Hin. by apply elem_of_nil in Hin.
    + vm_compute. intros Hin. by apply elem_of_nil in Hin.
    + vm_compute. discriminate.
  - apply (proj2 private_chat_membership demo_private "id-0"
             (mkChat "id-0" private None None None None
                     (Some 1000) (Some 1000))).
    + apply reachable_serve_all. constructor.
    + reflexivity.
    + reflexivity.
    + discriminate.
Defined.

(** C4 fails as stated: alice leaves her private chat with bob through the
    removal request; the request is answered 200 and the chat, which had two
    participants, is left with one. *)
Lemma private_chat_member_leaves :
  reachable demo_private ∧
  c_type <$> getChat (db demo_private) "id-0" = Some private ∧
  length (getChatParticipants (db demo_private) "id-0") = 2%nat ∧
  status (handle "alice" (DeleteGroupMember "id-0" "alice") demo_private).1
    = 200 ∧
  length (getChatParticipants
            (db (handle "alice" (DeleteGroupMember "id-0" "alice")
                        demo_private).2) "id-0") = 1%nat.
Proof.
  split; [|by vm_compute].
  apply reachable_serve_all. constructor.
Qed.

(** * Further properties *)

(** ** Looking up the private chat of two users *)

Lemma omap_ext_elem_of {A B} (f g : A → option B) (l : list A) :
  (∀ x, x ∈ l → f x = g x) → omap f l = omap g l.
Proof.
  induction l as [|x l IH]; intros Hfg; [done|]. csimpl.
  rewrite (Hfg x) by left. rewrite IH; [done|].
  intros y Hy. apply Hfg. by right.
Qed.

Lemma first_row_omap_Some {A B} (f : A → option B) (l : list A) y :
  first_row (omap f l) = Some y → ∃ x, x ∈ l ∧ f x = Some y.
Proof.
  intros Hy. apply head_Some_elem_of in Hy.
  by apply list_elem_of_omap in Hy.
Qed.

Lemma first_row_omap_is_Some {A B} (f : A → option B) (l : list A) x :
  x ∈ l → is_Some (f x) → is_Some (first_row (omap f l)).
Proof.
  intros Hx [y Hy]. apply head_is_Some. intros Hnil.
  assert (y ∈ omap f l) as Hin by (apply list_elem_of_omap; eauto).
  rewrite Hnil in Hin. by apply elem_of_nil in Hin.
Qed.

Lemma is_Some_getChatParticipant d chatId userId :
  is_Some (getChatParticipant d chatId userId) ↔
  ∃ p, p ∈ getChatParticipants d chatId ∧ p_userId p = userId.
Proof.
  split.
  - intros [p Hp]. apply getChatParticipant_Some in Hp as [[Hk Hu] Hp].
    exists p. by rewrite getChatParticipants_elem_of.
  - intros (p & [Hk Hp]%getChatParticipants_elem_of & Hu).
    unfold getChatParticipant, first_row. apply head_is_Some. intros Hnil.
    assert (p ∈ filter (λ p, p_chatId p = chatId ∧ p_userId p = userId)
                       (chatParticipants d)) as Hin
      by by apply list_elem_of_filter.
    rewrite Hnil in Hin. by apply elem_of_nil in Hin.
Qed.

Lemma getPrivateChatBetweenUsers_Some d userId1 userId2 chat :
  getPrivateChatBetweenUsers d userId1 userId2 = Some chat →
  getChat d (c_id chat) = Some chat ∧
  private_chat_of d (c_id chat) userId1 userId2.
Proof.
  intros (p & Hp & Hf)%first_row_omap_Some.
  apply list_elem_of_filter in Hp as [Hu Hp]. cbv beta zeta in Hf.
  destruct (getChat d (p_chatId p)) as [c|] eqn:Hc; [|done].
  case_decide as Hpriv; [|done]. case_decide as Hlen; [|done].
  destruct Hlen as [Hlen Hex]. injection Hf as ->.
  destruct (getChat_Some _ _ _ Hc) as [Hid _]. rewrite Hid.
  split; [done|]. split; [eauto|]. split; [done|]. split.
  - apply is_Some_getChatParticipant. exists p.
    by rewrite getChatParticipants_elem_of.
  - apply is_Some_getChatParticipant.
    apply Exists_exists in Hex as (q & Hq & Hqu). eauto.
Qed.

Lemma is_Some_getPrivateChatBetweenUsers d userId1 userId2 :
  is_Some (getPrivateChatBetweenUsers d userId1 userId2) ↔
  ∃ chatId, private_chat_of d chatId userId1 userId2.
Proof.
  split.
  - intros [chat Hchat]. exists (c_id chat).
    by apply getPrivateChatBetweenUsers_Some.
  - intros (chatId & (chat & Hc & Hpriv) & Hlen & H1 & H2).
    apply is_Some_getChatParticipant in H1 as (p & Hp & Hu).
    apply is_Some_getChatParticipant in H2 as (q & Hq & Hqu).
    apply getChatParticipants_elem_of in Hp as [Hk Hp].
    unfold getPrivateChatBetweenUsers.
    apply first_row_omap_is_Some with (x := p);
      [by apply list_elem_of_filter|].
    rewrite Hk, Hc. rewrite decide_True by done.
    rewrite decide_True; [done|]. split; [done|].
    apply Exists_exists. eauto.
Qed.

(** X1. [getPrivateChatBetweenUsers] answers with a chat exactly when some
    private chat has two Participation rows and both users among its
    participants; the chat it answers with is such a chat. *)
Theorem getPrivateChatBetweenUsers_spec (d : DB) (userId1 userId2 : string) :
  (∀ chat, getPrivateChatBetweenUsers d userId1 userId2 = Some chat →
     getChat d (c_id chat) = Some chat ∧
     private_chat_of d (c_id chat) userId1 userId2) ∧
  (is_Some (getPrivateChatBetweenUsers d userId1 userId2) ↔
   ∃ chatId, private_chat_of d chatId userId1 userId2).
Proof.
  split.
  - intros chat. apply getPrivateChatBetweenUsers_Some.
  - apply is_Some_getPrivateChatBetweenUsers.
Qed.

(** X2. Whether two users have a private chat does not depend on who asks:
    the lookup finds a chat for (a, b) exactly when it finds one for
    (b, a). *)
Theorem getPrivateChatBetweenUsers_sym (d : DB) (userId1 userId2 : string) :
  is_Some (getPrivateChatBetweenUsers d userId1 userId2) ↔
  is_Some (getPrivateChatBetweenUsers d userId2 userId1).
Proof.
  rewrite !is_Some_getPrivateChatBetweenUsers.
  unfold private_chat_of. split; intros (k & ? & ? & ? & ?); by exists k.
Qed.

(** ** Creating a private chat, and asking again *)

Lemma filter_snoc_True {A} (P : A → Prop) `{∀ x, Decision (P x)} l x :
  P x → filter P (l ++ [x]) = filter P l ++ [x].
Proof.
  intros HP. rewrite filter_app. f_equal.
  unfold filter. simpl. by rewrite decide_True.
Qed.

Lemma filter_snoc_False {A} (P : A → Prop) `{∀ x, Decision (P x)} l x :
  ¬ P x → filter P (l ++ [x]) = filter P l.
Proof.
  intros HP. rewrite filter_app.
  unfold filter at 2. simpl. rewrite decide_False by done.
  by rewrite app_nil_r.
Qed.

Lemma POST_chats_existing w userId b existing :
  createChatSchema b →
  getPrivateChatBetweenUsers (db w) userId (participantId b) = Some existing →
  POST_chats userId b w =
    (mkResponse 200
       (JChatWithDetails (getChatWithDetails (db w) (c_id existing))), w).
Proof.
  intros Hb Hex. unfold POST_chats. run.
  rewrite decide_True by done. by rewrite Hex.
Qed.

Lemma POST_chats_created w userId b :
  createChatSchema b →
  getPrivateChatBetweenUsers (db w) userId (participantId b) = None →
  fresh_for_private_chat w →
  POST_chats userId b w =
    (mkResponse 200
       (JChatWithDetails
          (getChatWithDetails (with_private_chat w userId (participantId b))
                              (uuids w (drawn w)))),
     mkWorld (with_private_chat w userId (participantId b)) (clock w)
             (uuids w) (S (S (S (drawn w))))).
Proof.
  intros Hb Hnone (Hc & Hp1 & Hp2 & Hne).
  unfold POST_chats. run. rewrite decide_True by done. rewrite Hnone.
  unfold createChat, addChatParticipant, gen_random_uuid, insert_returning.
  run. rewrite decide_False by done. simpl.
  rewrite decide_False by done. simpl.
  rewrite decide_False; simpl.
  - unfold with_private_chat, set_db, set_chatParticipants, set_chats. simpl.
    by rewrite <- !app_assoc.
  - rewrite fmap_app. intros [Hin|Hin%list_elem_of_singleton]%elem_of_app;
      [by apply Hp2|by apply Hne].
Qed.

Section created_chat.
Context (w : World) (userId otherId : string).
Hypothesis Hd : consistent (db w).
Hypothesis Hfresh : uuids w (drawn w) ∉ c_id <$> chats (db w).

Lemma created_getChat_other chatId :
  chatId ≠ (uuids w (drawn w)) → getChat (with_private_chat w userId otherId) chatId = getChat (db w) chatId.
Proof.
  intros Hne. unfold getChat, with_private_chat. simpl.
  rewrite filter_snoc_False; [done|]. simpl. by intros <-.
Qed.

Lemma created_getChatParticipants_other chatId :
  chatId ≠ (uuids w (drawn w)) →
  getChatParticipants (with_private_chat w userId otherId) chatId = getChatParticipants (db w) chatId.
Proof.
  intros Hne. unfold getChatParticipants, with_private_chat. simpl.
  rewrite filter_app, (filter_none _ [_; _]); [by rewrite app_nil_r|].
  intros p Hp Hk. apply Hne. rewrite <- Hk.
  apply elem_of_cons in Hp as [->|Hp]; [done|].
  by apply list_elem_of_singleton in Hp as ->.
Qed.

Lemma created_getChat :
  getChat (with_private_chat w userId otherId) (uuids w (drawn w)) =
    Some (mkChat (uuids w (drawn w)) private None None None None
                 (Some (clock w)) (Some (clock w))).
Proof.
  unfold getChat, with_private_chat. simpl. rewrite filter_app.
  rewrite (filter_none (λ c, c_id c = (uuids w (drawn w))) (chats (db w))).
  - unfold filter. simpl. by rewrite decide_True by done.
  - intros c Hc Hid. apply Hfresh. rewrite <- Hid.
    by apply list_elem_of_fmap_2.
Qed.

Lemma created_getChatParticipants :
  getChatParticipants (with_private_chat w userId otherId) (uuids w (drawn w)) =
    [mkChatParticipant (uuids w (S (drawn w))) (uuids w (drawn w)) userId member
                       (Some (clock w)) None;
     mkChatParticipant (uuids w (S (S (drawn w)))) (uuids w (drawn w)) otherId member
                       (Some (clock w)) None].
Proof.
  unfold getChatParticipants, with_private_chat. simpl. rewrite filter_app.
  rewrite (filter_none (λ p, p_chatId p = (uuids w (drawn w))) (chatParticipants (db w))).
  - by repeat (unfold filter; simpl; rewrite decide_True by done).
  - intros p Hp Hk. destruct (rows_have_chat _ Hd p Hp) as (c & Hc & Hid).
    apply Hfresh. rewrite <- Hk, <- Hid. by apply list_elem_of_fmap_2.
Qed.

Lemma created_private_chat_of :
  private_chat_of (with_private_chat w userId otherId) (uuids w (drawn w)) userId otherId.
Proof.
  split; [rewrite created_getChat; eauto|].
  split; [by rewrite created_getChatParticipants|].
  split; apply is_Some_getChatParticipant; rewrite created_getChatParticipants.
  - eexists. split; [apply elem_of_cons; by left|done].
  - eexists. split; [apply elem_of_cons; right; apply elem_of_cons; by left|].
    done.
Qed.

(** The only private chat of the two users is the new one, when they had
    none before. *)
Lemma created_lookup a b :
  getPrivateChatBetweenUsers (db w) a b = None →
  is_Some (getPrivateChatBetweenUsers (with_private_chat w userId otherId) a b) →
  c_id <$> getPrivateChatBetweenUsers (with_private_chat w userId otherId) a b = Some (uuids w (drawn w)).
Proof.
  intros Hnone [chat Hchat]. rewrite Hchat. simpl. f_equal.
  destruct (getPrivateChatBetweenUsers_Some _ _ _ _ Hchat) as [_ Hpc].
  destruct (decide (c_id chat = (uuids w (drawn w)))) as [|Hne]; [done|].
  assert (is_Some (getPrivateChatBetweenUsers (db w) a b)) as [? Hsome];
    [|congruence].
  apply is_Some_getPrivateChatBetweenUsers. exists (c_id chat).
  destruct Hpc as ((c & Hc & Hpriv) & Hlen & H1 & H2).
  unfold private_chat_of.
  rewrite !is_Some_getChatParticipant in *.
  rewrite created_getChatParticipants_other in * by done.
  rewrite created_getChat_other in Hc by done. eauto 10.
Qed.
End created_chat.

Lemma getPrivateChatBetweenUsers_None_sym d a b :
  getPrivateChatBetweenUsers d a b = None →
  getPrivateChatBetweenUsers d b a = None.
Proof.
  intros Hnone. apply eq_None_not_Some. intros Hsome.
  assert (is_Some (getPrivateChatBetweenUsers d a b)) as [? ?]; [|congruence].
  apply is_Some_getPrivateChatBetweenUsers.
  apply is_Some_getPrivateChatBetweenUsers in Hsome as (k & ? & ? & ? & ?).
  exists k. by repeat split.
Qed.

(** X3. Asking twice for the private chat with the same user gives the same
    chat. When POST /api/chats creates the chat (no chat between the two
    yet, fresh generated ids), the lookup finds the new chat afterwards,
    whichever of the two users asks, and a second identical request gets the
    very same answer and changes nothing. *)
Theorem POST_chats_twice (w : World) (userId : string) (b : CreateChatBody) :
  reachable w →
  createChatSchema b →
  getPrivateChatBetweenUsers (db w) userId (participantId b) = None →
  fresh_for_private_chat w →
  let w1 := (POST_chats userId b w).2 in
  c_id <$> getPrivateChatBetweenUsers (db w1) userId (participantId b) =
    Some (uuids w (drawn w)) ∧
  c_id <$> getPrivateChatBetweenUsers (db w1) (participantId b) userId =
    Some (uuids w (drawn w)) ∧
  POST_chats userId b w1 = ((POST_chats userId b w).1, w1).
Proof.
  intros Hd%reachable_consistent Hb Hnone Hfresh. cbv zeta.
  rewrite POST_chats_created by done. simpl.
  destruct Hfresh as (Hc & _).
  pose proof (created_private_chat_of w userId (participantId b) Hd Hc)
    as Hpc.
  assert (c_id <$> getPrivateChatBetweenUsers
                     (with_private_chat w userId (participantId b))
                     userId (participantId b) = Some (uuids w (drawn w)))
    as Hfound.
  { apply created_lookup; [done|].
    apply is_Some_getPrivateChatBetweenUsers. eauto. }
  split; [done|]. split.
  - apply created_lookup; [by apply getPrivateChatBetweenUsers_None_sym|].
    apply is_Some_getPrivateChatBetweenUsers. eexists.
    destruct Hpc as (? & ? & ? & ?). by repeat split.
  - destruct (getPrivateChatBetweenUsers
                (with_private_chat w userId (participantId b))
                userId (participantId b)) as [existing|] eqn:Hex; [|done].
    injection Hfound as Hid.
    erewrite POST_chats_existing by done. simpl. by rewrite Hid.
Qed.

Lemma POST_chats_twice_witness :
  let w1 := (POST_chats "alice" (mkCreateChatBody "bob") demo_world).2 in
  c_id <$> getPrivateChatBetweenUsers (db w1) "alice" "bob" = Some "id-0" ∧
  c_id <$> getPrivateChatBetweenUsers (db w1) "bob" "alice" = Some "id-0" ∧
  POST_chats "alice" (mkCreateChatBody "bob") w1 =
    ((POST_chats "alice" (mkCreateChatBody "bob") demo_world).1, w1).
Proof.
  apply (POST_chats_twice demo_world "alice" (mkCreateChatBody "bob")).
  - constructor.
  - unfold createChatSchema. simpl. lia.
  - reflexivity.
  - repeat split; vm_compute; try discriminate;
      intros Hin; by apply elem_of_nil in Hin.
Defined.

Lemma getPrivateChatBetweenUsers_spec_witness :
  getChat (db demo_private) "id-0" =
    Some (mkChat "id-0" private None None None None (Some 1000) (Some 1000)) ∧
  private_chat_of (db demo_private) "id-0" "alice" "bob".
Proof.
  apply (proj1 (getPrivateChatBetweenUsers_spec (db demo_private)
                  "alice" "bob")
           (mkChat "id-0" private None None None None
                   (Some 1000) (Some 1000))).
  reflexivity.
Defined.

Lemma getPrivateChatBetweenUsers_sym_witness :
  is_Some (getPrivateChatBetweenUsers (db demo_private) "bob" "alice").
Proof.
  apply (proj1 (getPrivateChatBetweenUsers_sym (db demo_private)
                  "alice" "bob")).
  vm_compute. eauto.
Defined.

(** ** Deleting a chat *)

Lemma filter_delete_where {A} (P Q : A → Prop)
    `{∀ x, Decision (P x)} `{∀ x, Decision (Q x)} (l : list A) :
  (∀ x, P x → ¬ Q x) → filter P (delete_where Q l) = filter P l.
Proof.
  intros HPQ. unfold delete_where. rewrite list_filter_filter.
  apply list_filter_iff. intros x. split; [by intros [? _]|].
  intros HP. split; [done|]. by apply HPQ.
Qed.

Lemma filter_delete_where_same {A} (P : A → Prop) `{∀ x, Decision (P x)}
    (l : list A) :
  filter P (delete_where P l) = [].
Proof.
  apply filter_none. intros x [Hx _]%elem_of_delete_where. done.
Qed.

Lemma DELETE_group_run w userId chatId chat :
  getChat (db w) chatId = Some chat →
  c_createdBy chat = Some userId →
  DELETE_group userId chatId w =
    (mkResponse 200 JSuccess,
     set_db w
       (mkDB (delete_where (λ c, c_id c = chatId) (chats (db w)))
             (delete_where (λ p, p_chatId p = chatId)
                           (chatParticipants (db w)))
             (delete_where (λ m, m_chatId m = chatId) (messages (db w)))
             (friendships (db w)))).
Proof.
  intros Hchat Hby. unfold DELETE_group, deleteChat. run.
  rewrite Hchat, Hby. simpl. by rewrite decide_False by (intros H; by apply H).
Qed.

(** X4. When its creator deletes a chat, everything of the chat goes with
    it: the request is answered 200 and afterwards the chat is not found, it
    has no Participation row and no message; every other chat keeps its row,
    its participants and its messages, and the friendships are untouched. *)
Theorem DELETE_group_cascade (w : World) (userId chatId : string)
    (chat : Chat) :
  getChat (db w) chatId = Some chat →
  c_createdBy chat = Some userId →
  let w' := (DELETE_group userId chatId w).2 in
  (DELETE_group userId chatId w).1 = mkResponse 200 JSuccess ∧
  getChatWithDetails (db w') chatId = None ∧
  status (GET_chat userId chatId w').1 = 404 ∧
  getChatParticipants (db w') chatId = [] ∧
  (∀ m, m ∈ messages (db w') → m_chatId m ≠ chatId) ∧
  (∀ k limit, k ≠ chatId →
     getChat (db w') k = getChat (db w) k ∧
     getChatParticipants (db w') k = getChatParticipants (db w) k ∧
     getMessages (db w') k limit = getMessages (db w) k limit) ∧
  friendships (db w') = friendships (db w).
Proof.
  intros Hchat Hby. cbv zeta. rewrite (DELETE_group_run w userId chatId chat)
    by done. simpl.
  assert (getChat
            (mkDB (delete_where (λ c, c_id c = chatId) (chats (db w)))
               (delete_where (λ p, p_chatId p = chatId)
                  (chatParticipants (db w)))
               (delete_where (λ m, m_chatId m = chatId) (messages (db w)))
               (friendships (db w))) chatId = None) as Hgone.
  { unfold getChat. simpl. by rewrite filter_delete_where_same. }
  split; [done|]. split; [|split; [|split; [|split; [|split]]]].
  - unfold getChatWithDetails. by rewrite Hgone.
  - unfold GET_chat. run. unfold getChatWithDetails. by rewrite Hgone.
  - unfold getChatParticipants. simpl. by rewrite filter_delete_where_same.
  - by intros m [Hm _]%elem_of_delete_where.
  - intros k limit Hk.
    unfold getChat, getChatParticipants, getMessages. simpl.
    by rewrite !filter_delete_where by (intros ? -> ; done).
  - done.
Qed.

Lemma DELETE_group_cascade_witness :
  let w' := (DELETE_group "alice" "id-0" demo_group).2 in
  (DELETE_group "alice" "id-0" demo_group).1 = mkResponse 200 JSuccess ∧
  getChatWithDetails (db w') "id-0" = None ∧
  status (GET_chat "alice" "id-0" w').1 = 404 ∧
  getChatParticipants (db w') "id-0" = [] ∧
  (∀ m, m ∈ messages (db w') → m_chatId m ≠ "id-0") ∧
  (∀ k limit, k ≠ "id-0" →
     getChat (db w') k = getChat (db demo_group) k ∧
     getChatParticipants (db w') k = getChatParticipants (db demo_group) k ∧
     getMessages (db w') k limit = getMessages (db demo_group) k limit) ∧
  friendships (db w') = friendships (db demo_group).
Proof.
  apply (DELETE_group_cascade demo_group "alice" "id-0"
           (mkChat "id-0" group (Some "team") None None (Some "alice")
                   (Some 1000) (Some 1000))).
  - reflexivity.
  - reflexivity.
Defined.

(** X5. Only the creator can delete a chat: an unknown chat id is answered
    404 and any caller who is not the chat's creator, admin or not, is
    answered 403; nothing changes in either case. In a world the server can
    reach a private chat has no creator, so nobody can delete it, and nobody
    can edit its settings either. *)
Theorem DELETE_group_creator_only (w : World) (userId chatId : string) :
  (getChat (db w) chatId = None →
   DELETE_group userId chatId w =
     (mkResponse 404 (JError "Chat not found"), w)) ∧
  (∀ chat, getChat (db w) chatId = Some chat →
     c_createdBy chat ≠ Some userId →
     DELETE_group userId chatId w =
       (mkResponse 403 (JError "Only the creator can delete this group"),
        w)) ∧
  (∀ chat b, reachable w → getChat (db w) chatId = Some chat →
     c_type chat = private →
     DELETE_group userId chatId w =
       (mkResponse 403 (JError "Only the creator can delete this group"),
        w) ∧
     (updateGroupSchema b →
      PATCH_group userId chatId b w =
        (mkResponse 403 (JError "Only admins can update group settings"),
         w))).
Proof.
  assert (∀ chat, getChat (db w) chatId = Some chat →
            c_createdBy chat ≠ Some userId →
            DELETE_group userId chatId w =
              (mkResponse 403
                 (JError "Only the creator can delete this group"), w))
    as Hother.
  { intros chat Hchat Hby. unfold DELETE_group. run. rewrite Hchat. simpl.
    by rewrite decide_True. }
  split; [|split; [done|]].
  - intros Hnone. unfold DELETE_group. run. by rewrite Hnone.
  - intros chat b Hd%reachable_consistent Hchat Hpriv. split.
    + apply (Hother chat Hchat).
      destruct (getChat_Some _ _ _ Hchat) as [_ Hin].
      by rewrite (private_no_creator _ Hd chat Hin Hpriv).
    + intros Hb. unfold PATCH_group. run. rewrite decide_True by done.
      rewrite decide_True; [done|].
      by apply (private_chat_no_admin (db w) chatId chat).
Qed.

Lemma DELETE_group_creator_only_witness :
  DELETE_group "bob" "id-0" demo_channel_two_admins =
    (mkResponse 403 (JError "Only the creator can delete this group"),
     demo_channel_two_admins).
Proof.
  apply (proj1 (proj2 (DELETE_group_creator_only demo_channel_two_admins
                         "bob" "id-0"))
           (mkChat "id-0" channel (Some "news") None None (Some "alice")
                   (Some 1000) (Some 1000))).
  - reflexivity.
  - discriminate.
Defined.

(** ** Creating a group and adding members *)

Lemma fresh_rows_S w first n :
  fresh_rows w first (S n) →
  (uuids w first ∉ p_id <$> chatParticipants (db w)) ∧
  fresh_rows w (S first) n ∧
  Forall (λ id, id ≠ uuids w first) (uuids w <$> seq (S first) n).
Proof.
  unfold fresh_rows. simpl. rewrite NoDup_cons, Forall_cons.
  intros [[Hnot Hnd] [Hfirst Hall]]. split; [done|]. split; [done|].
  apply Forall_forall. intros id Hid ->. done.
Qed.

Lemma fresh_rows_weaken w first n : fresh_rows w first (S n) → fresh_rows w first n.
Proof.
  unfold fresh_rows. rewrite seq_S, fmap_app, NoDup_app, Forall_app.
  by intros [(? & _ & _) [? _]].
Qed.

Lemma fresh_rows_after w first n row :
  fresh_rows w first n →
  Forall (λ id, id ≠ p_id row) (uuids w <$> seq first n) →
  fresh_rows (after_rows w [row] 1) first n.
Proof.
  unfold fresh_rows. simpl. intros [Hnd Hall] Hne. split; [done|].
  rewrite Forall_forall in *. intros id Hid.
  rewrite fmap_app. intros [Hin|Hin%list_elem_of_singleton]%elem_of_app.
  - by apply (Hall id).
  - by apply (Hne id).
Qed.

Lemma after_rows_after_rows w new1 n1 new2 n2 :
  after_rows (after_rows w new1 n1) new2 n2 =
  after_rows w (new1 ++ new2) (n1 + n2).
Proof.
  unfold after_rows. simpl. f_equal; [|lia].
  unfold set_chatParticipants. simpl. by rewrite app_assoc.
Qed.

Lemma addChatParticipant_fresh w participant :
  (uuids w (drawn w) ∉ p_id <$> chatParticipants (db w)) →
  addChatParticipant participant w =
    (Returned (new_participant w participant),
     after_rows w [new_participant w participant] 1).
Proof.
  intros Hfresh. rewrite addChatParticipant_run. simpl.
  rewrite decide_False by done. unfold after_rows, set_db. simpl.
  do 2 f_equal. lia.
Qed.

Lemma add_members_run chatId memberIds : ∀ w,
  fresh_rows w (drawn w) (length memberIds) →
  for_of memberIds (λ memberId,
    addChatParticipant
      (mkInsertChatParticipant chatId memberId (Some member));;
    mret tt) w =
  (Returned tt,
   after_rows w (member_rows w chatId (drawn w) memberIds)
              (length memberIds)).
Proof.
  induction memberIds as [|m l IH]; intros w Hfresh.
  - simpl. unfold mret, Async_ret, after_rows, member_rows. simpl.
    destruct w as [[] ? ? ?]. simpl.
    unfold set_chatParticipants. simpl. rewrite app_nil_r. do 2 f_equal. lia.
  - destruct (fresh_rows_S _ _ _ Hfresh) as (Hid & Hrest & Hne).
    simpl. unfold mbind, Async_bind at 1.
    unfold mbind, Async_bind at 1. rewrite addChatParticipant_fresh by done.
    simpl. unfold mret, Async_ret at 1. simpl.
    rewrite IH.
    + rewrite after_rows_after_rows. f_equal. f_equal.
      unfold member_rows. simpl. f_equal.
      * unfold new_participant. simpl. do 2 f_equal. lia.
      * apply imap_ext. intros i x _. simpl. do 2 f_equal. lia.
    + simpl. replace (drawn w + 1)%nat with (S (drawn w)) by lia.
      by apply fresh_rows_after.
Qed.

Lemma filter_all {A} (P : A → Prop) `{∀ x, Decision (P x)} (l : list A) :
  (∀ x, x ∈ l → P x) → filter P l = l.
Proof.
  induction l as [|x l IH]; intros HP; [done|].
  rewrite filter_cons_True by (apply HP; left).
  f_equal. apply IH. intros y Hy. apply HP. by right.
Qed.

Lemma bind_Returned {A B} (m : Async A) (f : A → Async B) w a w' :
  m w = (Returned a, w') → (m ≫= f) w = f a w'.
Proof. intros Hm. unfold mbind, Async_bind. by rewrite Hm. Qed.

Lemma createChat_fresh w chat :
  (uuids w (drawn w) ∉ c_id <$> chats (db w)) →
  createChat chat w =
    (Returned (new_chat w chat),
     mkWorld (set_chats (db w) (chats (db w) ++ [new_chat w chat]))
             (clock w) (uuids w) (S (drawn w))).
Proof.
  intros Hfresh. unfold createChat, gen_random_uuid, insert_returning. run.
  by rewrite decide_False.
Qed.

Lemma member_rows_userIds w chatId first memberIds :
  (λ p, (p_userId p, p_role p)) <$> member_rows w chatId first memberIds =
  (λ memberId, (memberId, member)) <$> memberIds.
Proof.
  unfold member_rows. revert first.
  induction memberIds as [|m l IH]; intros first; [done|].
  rewrite imap_cons. csimpl. f_equal.
  rewrite <- (IH (S first)). f_equal. apply imap_ext. intros i x _. simpl.
  do 2 f_equal. lia.
Qed.

Lemma member_rows_chatId w chatId first memberIds p :
  p ∈ member_rows w chatId first memberIds → p_chatId p = chatId.
Proof.
  unfold member_rows. intros (i & x & -> & _)%elem_of_lookup_imap. done.
Qed.

(** X6. Creating a group or channel. With a well-formed body and fresh
    generated ids, POST /api/groups answers 200 and creates a chat of the
    requested kind (a group when none is given, never a private chat) whose
    creator is the caller; its participants are the caller with role admin
    followed by the listed members with role member, one row per listed id
    in the order of the request (the list is not deduplicated and may name
    the caller again). *)
Theorem POST_groups_creates (w : World) (userId : string)
    (b : CreateGroupBody) :
  reachable w →
  createGroupSchema b →
  fresh_for_group w (length (default [] (cg_memberIds b))) →
  let chatId := uuids w (drawn w) in
  let w' := (POST_groups userId b w).2 in
  status (POST_groups userId b w).1 = 200 ∧
  (∃ chat, getChat (db w') chatId = Some chat ∧
           c_type chat = default group (cg_type b) ∧
           c_type chat ≠ private ∧
           c_name chat = Some (cg_name b) ∧
           c_createdBy chat = Some userId) ∧
  (λ p, (p_userId p, p_role p)) <$> getChatParticipants (db w') chatId =
    (userId, admin) ::
    ((λ memberId, (memberId, member)) <$> default [] (cg_memberIds b)).
Proof.
  intros Hd%reachable_consistent Hb [Hc Hrows]. cbv zeta.
  destruct (fresh_rows_S _ _ _ Hrows) as (Hid & Hrest & Hne).
  assert (filter (λ p, p_chatId p = uuids w (drawn w))
                 (chatParticipants (db w)) = []) as Hnone.
  { apply filter_none. intros p Hp Hk.
    destruct (rows_have_chat _ Hd p Hp) as (c & Hin & Hcid).
    apply Hc. rewrite <- Hk, <- Hcid. by apply list_elem_of_fmap_2. }
  assert (filter (λ c, c_id c = uuids w (drawn w)) (chats (db w)) = [])
    as Hchats.
  { apply filter_none. intros c Hin Hcid. apply Hc. rewrite <- Hcid.
    by apply list_elem_of_fmap_2. }
  unfold POST_groups, try_catch. rewrite decide_True by done.
  erewrite bind_Returned by by apply createChat_fresh.
  erewrite bind_Returned by by apply addChatParticipant_fresh.
  erewrite bind_Returned.
  2:{ apply add_members_run. simpl.
      replace (S (drawn w + 1))%nat with (S (S (drawn w))) by lia.
      apply fresh_rows_after; [exact Hrest|exact Hne]. }
  run. split; [done|]. split.
  - eexists. unfold getChat. simpl. rewrite filter_app, Hchats. simpl.
    unfold filter. simpl. rewrite decide_True by done. simpl.
    split; [done|]. split; [done|]. split; [|done].
    destruct Hb as (_ & _ & Hty).
    destruct (cg_type b) as [t|]; simpl in *; [|done].
    destruct Hty; congruence.
  - unfold getChatParticipants. simpl.
    rewrite <- app_assoc, filter_app, Hnone. simpl.
    rewrite filter_cons_True by done.
    rewrite filter_all.
    + rewrite fmap_cons. simpl. f_equal. apply member_rows_userIds.
    + intros p Hp. by eapply member_rows_chatId.
Qed.

Lemma to_add_elem_of present memberIds x :
  x ∈ to_add present memberIds → x ∈ memberIds ∧ x ∉ present.
Proof.
  revert present. induction memberIds as [|m l IH]; intros present; simpl.
  - by intros ?%elem_of_nil.
  - case_decide as Hm.
    + intros [? ?]%IH. split; [by right|done].
    + intros [->|Hx]%elem_of_cons; [split; [by left|done]|].
      apply IH in Hx as [? Hnot]. split; [by right|].
      intros Hin. apply Hnot, elem_of_app. by left.
Qed.

Lemma to_add_NoDup present memberIds : NoDup (to_add present memberIds).
Proof.
  revert present. induction memberIds as [|m l IH]; intros present; simpl.
  - constructor.
  - case_decide; [apply IH|]. constructor; [|apply IH].
    intros [_ Hnot]%to_add_elem_of. apply Hnot, elem_of_app. right. by left.
Qed.

Lemma to_add_covers present memberIds x :
  x ∈ memberIds → x ∈ present ∨ x ∈ to_add present memberIds.
Proof.
  revert present. induction memberIds as [|m l IH]; intros present; simpl.
  - by intros ?%elem_of_nil.
  - intros [->|Hx]%elem_of_cons.
    + case_decide; [by left|right; by left].
    + case_decide; [by apply IH|].
      destruct (IH (present ++ [m]) Hx) as [[?| ->%list_elem_of_singleton]%elem_of_app|?].
      * by left.
      * right. by left.
      * right. by right.
Qed.

Lemma query_bind {A B} (f : DB → A) (g : A → Async B) w :
  (query f ≫= g) w = g (f (db w)) w.
Proof. done. Qed.

Lemma elem_of_present d chatId memberId :
  memberId ∈ p_userId <$> getChatParticipants d chatId ↔
  is_Some (getChatParticipant d chatId memberId).
Proof.
  rewrite is_Some_getChatParticipant, list_elem_of_fmap.
  split; intros (p & ? & ?); eauto.
Qed.

Lemma bulk_add_run chatId memberIds : ∀ w,
  fresh_rows w (drawn w) (length memberIds) →
  ∃ new n,
    for_of memberIds (λ memberId,
      existing ← query (λ d, getChatParticipant d chatId memberId);
      match existing with
      | None =>
          addChatParticipant
            (mkInsertChatParticipant chatId memberId (Some member));;
          mret tt
      | Some _ => mret tt
      end) w = (Returned tt, after_rows w new n) ∧
    p_userId <$> new =
      to_add (p_userId <$> getChatParticipants (db w) chatId) memberIds ∧
    Forall (λ p, p_chatId p = chatId ∧ p_role p = member) new.
Proof.
  induction memberIds as [|m l IH]; intros w Hfresh.
  - exists [], 0%nat. split; [|done]. simpl.
    unfold mret, Async_ret, after_rows. destruct w as [[] ? ? ?]. simpl.
    unfold set_chatParticipants. simpl. rewrite app_nil_r. do 2 f_equal. lia.
  - cbn [for_of to_add].
    destruct (decide (m ∈ p_userId <$> getChatParticipants (db w) chatId))
      as [Hin|Hin].
    + destruct (IH w) as (new & n & Hrun & Hnew & Hall);
        [by apply fresh_rows_weaken|].
      exists new, n. split; [|done].
      erewrite bind_Returned; [exact Hrun|].
      rewrite query_bind.
      apply elem_of_present in Hin as [p Hp]. by rewrite Hp.
    + destruct (fresh_rows_S _ _ _ Hfresh) as (Hid & Hrest & Hne).
      pose (row0 := new_participant w
                      (mkInsertChatParticipant chatId m (Some member))).
      destruct (IH (after_rows w [row0] 1)) as (new & n & Hrun & Hnew & Hall).
      { simpl. replace (drawn w + 1)%nat with (S (drawn w)) by lia.
        by apply fresh_rows_after. }
      exists (row0 :: new), (1 + n)%nat. split; [|split].
      * erewrite bind_Returned.
        -- rewrite Hrun. by rewrite after_rows_after_rows.
        -- rewrite query_bind.
           assert (getChatParticipant (db w) chatId m = None) as ->.
           { apply eq_None_not_Some. intros Hsome.
             by apply Hin, elem_of_present. }
           erewrite bind_Returned; [done|].
           by apply addChatParticipant_fresh.
      * rewrite fmap_cons, Hnew. simpl. f_equal. f_equal.
        unfold getChatParticipants. simpl.
        by rewrite filter_snoc_True, fmap_app.
      * by constructor.
Qed.

(** X7. Adding members in bulk. A caller without an admin Participation in
    the chat is answered 403 and nothing changes. For an admin, with fresh
    generated ids, the request is answered 200 and only appends rows to the
    membership table: one row with role member for each listed user who had
    no Participation in the chat, never two for the same user and none for a
    user who already participates; afterwards every listed user
    participates. Chats and messages are untouched. *)
Theorem POST_group_members_adds (w : World) (userId chatId : string)
    (b : AddMembersBody) :
  addMembersSchema b →
  (not_admin (getChatParticipant (db w) chatId userId) →
   POST_group_members userId chatId b w =
     (mkResponse 403 (JError "Only admins can add members"), w)) ∧
  (¬ not_admin (getChatParticipant (db w) chatId userId) →
   fresh_rows w (drawn w) (length (am_memberIds b)) →
   let w' := (POST_group_members userId chatId b w).2 in
   status (POST_group_members userId chatId b w).1 = 200 ∧
   chats (db w') = chats (db w) ∧
   messages (db w') = messages (db w) ∧
   ∃ new,
     chatParticipants (db w') = chatParticipants (db w) ++ new ∧
     Forall (λ p, p_chatId p = chatId ∧ p_role p = member) new ∧
     NoDup (p_userId <$> new) ∧
     (∀ p, p ∈ new →
        p_userId p ∈ am_memberIds b ∧
        getChatParticipant (db w) chatId (p_userId p) = None) ∧
     (∀ memberId, memberId ∈ am_memberIds b →
        is_Some (getChatParticipant (db w') chatId memberId))).
Proof.
  intros Hb. split.
  - intros Hno. unfold POST_group_members. run.
    rewrite decide_True by done. by rewrite decide_True.
  - intros Hadmin Hfresh. cbv zeta.
    destruct (bulk_add_run chatId (am_memberIds b) w Hfresh)
      as (new & n & Hrun & Hnew & Hall).
    unfold POST_group_members, try_catch. rewrite decide_True by done.
    rewrite query_bind. rewrite decide_False by done.
    erewrite bind_Returned by exact Hrun. run.
    split; [done|]. split; [done|]. split; [done|].
    exists new. split; [done|]. split; [done|]. split; [|split].
    + rewrite Hnew. apply to_add_NoDup.
    + intros p Hp.
      assert (p_userId p ∈ p_userId <$> new) as Hin
        by by apply list_elem_of_fmap_2.
      rewrite Hnew in Hin. apply to_add_elem_of in Hin as [Hl Hnot].
      split; [done|]. apply eq_None_not_Some. intros Hsome.
      by apply Hnot, elem_of_present.
    + intros m Hm. apply is_Some_getChatParticipant.
      destruct (to_add_covers (p_userId <$> getChatParticipants (db w) chatId)
                  _ _ Hm) as [Hin|Hin].
      * apply list_elem_of_fmap in Hin as (p & -> & Hp).
        apply getChatParticipants_elem_of in Hp as [Hk Hp].
        exists p. split; [|done]. apply getChatParticipants_elem_of.
        split; [done|]. simpl. apply elem_of_app. by left.
      * rewrite <- Hnew in Hin.
        apply list_elem_of_fmap in Hin as (p & -> & Hp).
        exists p. split; [|done]. apply getChatParticipants_elem_of.
        rewrite Forall_forall in Hall. split; [by apply Hall|].
        simpl. apply elem_of_app. by right.
Qed.

Lemma POST_groups_creates_witness :
  let b := mkCreateGroupBody "team" None (Some ["bob"; "alice"]) None in
  let w' := (POST_groups "alice" b demo_world).2 in
  status (POST_groups "alice" b demo_world).1 = 200 ∧
  (∃ chat, getChat (db w') "id-0" = Some chat ∧
           c_type chat = group ∧ c_type chat ≠ private ∧
           c_name chat = Some "team" ∧ c_createdBy chat = Some "alice") ∧
  (λ p, (p_userId p, p_role p)) <$> getChatParticipants (db w') "id-0" =
    [("alice", admin); ("bob", member); ("alice", member)].
Proof.
  apply (POST_groups_creates demo_world "alice"
           (mkCreateGroupBody "team" None (Some ["bob"; "alice"]) None)).
  - constructor.
  - unfold createGroupSchema, length_between. simpl. lia.
  - unfold fresh_for_group, fresh_rows.
    repeat split; apply (bool_decide_unpack _); vm_compute; exact I.
Defined.

Lemma POST_group_members_adds_witness :
  let b := mkAddMembersBody ["bob"; "carol"; "carol"] in
  let w' := (POST_group_members "alice" "id-0" b demo_group).2 in
  status (POST_group_members "alice" "id-0" b demo_group).1 = 200 ∧
  chats (db w') = chats (db demo_group) ∧
  messages (db w') = messages (db demo_group) ∧
  ∃ new,
    chatParticipants (db w') = chatParticipants (db demo_group) ++ new ∧
    Forall (λ p, p_chatId p = "id-0" ∧ p_role p = member) new ∧
    NoDup (p_userId <$> new) ∧
    (∀ p, p ∈ new →
       p_userId p ∈ ["bob"; "carol"; "carol"] ∧
       getChatParticipant (db demo_group) "id-0" (p_userId p) = None) ∧
    (∀ memberId, memberId ∈ ["bob"; "carol"; "carol"] →
       is_Some (getChatParticipant (db w') "id-0" memberId)).
Proof.
  apply (proj2 (POST_group_members_adds demo_group "alice" "id-0"
                  (mkAddMembersBody ["bob"; "carol"; "carol"])
                  ltac:(unfold addMembersSchema; simpl; lia))).
  - vm_compute. intros Hno. by apply Hno.
  - unfold fresh_rows.
    split; apply (bool_decide_unpack _); vm_compute; exact I.
Defined.

Example POST_group_members_demo :
  p_userId <$>
    chatParticipants
      (db (POST_group_members "alice" "id-0"
             (mkAddMembersBody ["bob"; "carol"; "carol"]) demo_group).2) =
  ["alice"; "bob"; "carol"].
Proof. reflexivity. Qed.

(** ** Reading a chat *)

Lemma update_where_none {A} (P : A → Prop) `{∀ x, Decision (P x)}
    (f : A → A) (l : list A) :
  (∀ x, x ∈ l → ¬ P x) → update_where P f l = l.
Proof.
  intros Hno. unfold update_where.
  induction l as [|x l IH]; [done|]. rewrite fmap_cons.
  rewrite decide_False by (apply Hno; left).
  f_equal. apply IH. intros y Hy. apply Hno. by right.
Qed.

Lemma GET_chat_messages_run w userId chatId :
  GET_chat_messages userId chatId w =
    (mkResponse 200 (JMessages (getMessages (db w) chatId 50)),
     set_db w (set_chatParticipants (db w)
       (update_where (λ p, p_chatId p = chatId ∧ p_userId p = userId)
                     (read_at (clock w)) (chatParticipants (db w))))).
Proof. done. Qed.

(** X8. Reading a chat clears the reader's unread count. GET
    /api/chats/:chatId/messages answers 200 with the chat's 50 most recent
    messages and sets the read cursor of the caller's Participation in that
    chat to the current time; when no message of the chat is stamped later
    than that, every entry for the chat in the caller's chat list then shows
    0 unread messages. Messages, chats and every other Participation row are
    left as they were. *)
Theorem read_clears_unread (w : World) (userId chatId : string) :
  (∀ m t, m ∈ messages (db w) → m_chatId m = chatId →
          m_createdAt m = Some t → t ≤ clock w) →
  let w' := (GET_chat_messages userId chatId w).2 in
  (GET_chat_messages userId chatId w).1 =
    mkResponse 200 (JMessages (getMessages (db w) chatId 50)) ∧
  (∀ c, c ∈ getUserChats (db w') userId → c_id (cd_chat c) = chatId →
        unreadCount c = 0%nat) ∧
  messages (db w') = messages (db w) ∧
  chats (db w') = chats (db w) ∧
  length (chatParticipants (db w')) = length (chatParticipants (db w)) ∧
  (∀ p, p ∈ chatParticipants (db w') →
        p ∈ chatParticipants (db w) ∨
        (p_chatId p = chatId ∧ p_userId p = userId ∧
         p_lastRead p = Some (clock w))).
Proof.
  intros Hpast. cbv zeta. rewrite GET_chat_messages_run. simpl.
  assert (∀ p, p ∈ update_where
                     (λ p, p_chatId p = chatId ∧ p_userId p = userId)
                     (read_at (clock w)) (chatParticipants (db w)) →
            (p ∈ chatParticipants (db w) ∧
             ¬ (p_chatId p = chatId ∧ p_userId p = userId)) ∨
            (p_chatId p = chatId ∧ p_userId p = userId ∧
             p_lastRead p = Some (clock w))) as Hrows.
  { intros p (q & -> & Hq)%list_elem_of_fmap.
    case_decide as HP; [right|left]; [|done]. by destruct HP. }
  split; [done|]. split; [|split; [done|split; [done|split]]].
  - intros c (p & cwd & Hp & Hu & Hcwd & ->)%elem_of_getUserChats Hid.
    simpl in *. apply getChatWithDetails_Some in Hcwd as (Hchat & _).
    apply getChat_Some in Hchat as [Hk _]. rewrite Hid in Hk.
    rewrite <- Hk.
    match goal with |- unread_of ?d _ _ = _ => set (d' := d) end.
    destruct (getChatParticipant d' chatId userId) as [q|] eqn:Hq.
    + rewrite (unread_of_cursor d' userId chatId q Hq).
      apply getChatParticipant_Some in Hq as [HP Hq].
      destruct (Hrows q Hq) as [[_ Hno]|(_ & _ & ->)]; [done|].
      rewrite filter_none; [done|].
      intros m Hm (Hc & _ & t & Ht & Hlt).
      specialize (Hpast m t Hm Hc Ht). lia.
    + eapply first_row_None in Hq; [|exact Hp]. by destruct Hq.
  - unfold update_where. by rewrite length_fmap.
  - intros p [[? _]|?]%Hrows; [by left|by right].
Qed.

Lemma read_clears_unread_witness :
  let w' := (GET_chat_messages "alice" "id-0" demo_talk_later).2 in
  (GET_chat_messages "alice" "id-0" demo_talk_later).1 =
    mkResponse 200 (JMessages (getMessages (db demo_talk_later) "id-0" 50)) ∧
  (∀ c, c ∈ getUserChats (db w') "alice" → c_id (cd_chat c) = "id-0" →
        unreadCount c = 0%nat) ∧
  messages (db w') = messages (db demo_talk_later) ∧
  chats (db w') = chats (db demo_talk_later) ∧
  length (chatParticipants (db w')) =
    length (chatParticipants (db demo_talk_later)) ∧
  (∀ p, p ∈ chatParticipants (db w') →
        p ∈ chatParticipants (db demo_talk_later) ∨
        (p_chatId p = "id-0" ∧ p_userId p = "alice" ∧
         p_lastRead p = Some (clock demo_talk_later))).
Proof.
  apply (read_clears_unread demo_talk_later "alice" "id-0").
  intros m t Hm. vm_compute in Hm.
  repeat (apply elem_of_cons in Hm as [->|Hm];
          [intros _ [= <-]; vm_compute; discriminate|]).
  by apply elem_of_nil in Hm.
Defined.

(** X9. Reading needs no membership. For a caller who has no Participation
    in the chat (and also for a chat id that names no chat) GET
    /api/chats/:chatId/messages still answers 200 with the chat's messages;
    nothing is refused and nothing changes. *)
Theorem GET_chat_messages_open (w : World) (userId chatId : string) :
  getChatParticipant (db w) chatId userId = None →
  (GET_chat_messages userId chatId w).1 =
    mkResponse 200 (JMessages (getMessages (db w) chatId 50)) ∧
  db (GET_chat_messages userId chatId w).2 = db w.
Proof.
  intros Hnone. rewrite GET_chat_messages_run. simpl. split; [done|].
  rewrite update_where_none.
  - by destruct (db w).
  - intros p Hp HP. eapply first_row_None in Hnone; [|exact Hp]. done.
Qed.

Lemma GET_chat_messages_open_witness :
  (GET_chat_messages "mallory" "id-0" demo_talk).1 =
    mkResponse 200 (JMessages (getMessages (db demo_talk) "id-0" 50)) ∧
  db (GET_chat_messages "mallory" "id-0" demo_talk).2 = db demo_talk.
Proof.
  apply (GET_chat_messages_open demo_talk "mallory" "id-0"). reflexivity.
Defined.

(** ** The message window *)

Lemma desc_total a b : 0 < desc a b → desc b a ≤ 0.
Proof. destruct a, b; simpl; lia. Qed.

Lemma desc_trans a b c : desc a b ≤ 0 → desc b c ≤ 0 → desc a c ≤ 0.
Proof. destruct a, b, c; simpl; lia. Qed.

Lemma newest_first_messages_sorted (l : list Message) :
  StronglySorted (λ a b, desc (m_createdAt a) (m_createdAt b) ≤ 0)
    (Array_sort (λ a b, desc (m_createdAt a) (m_createdAt b)) l).
Proof.
  apply Sorted_StronglySorted.
  - intros a b c. apply desc_trans.
  - apply Sorted_Array_sort. intros a b. apply desc_total.
Qed.

Lemma desc_not_after d a b :
  timestamped d → a ∈ messages d → b ∈ messages d →
  desc (m_createdAt a) (m_createdAt b) ≤ 0 → not_after b a.
Proof.
  intros [_ Hm] Ha Hb. destruct (Hm a Ha) as [ta Hta], (Hm b Hb) as [tb Htb].
  rewrite Hta, Htb. simpl. intros Hle. exists tb, ta. repeat split; [done..|lia].
Qed.

Lemma elem_of_take_inv {A} (l : list A) n x : x ∈ take n l → x ∈ l.
Proof.
  intros Hx. rewrite <- (take_drop n l). apply elem_of_app. by left.
Qed.

(** X10. The window [getMessages] returns. On a database whose messages
    carry their creation time, [getMessages chatId limit] returns
    [min limit n] messages, [n] being the number of messages of the chat;
    they are messages of that chat, listed oldest first, and they are the
    most recent ones: every message of the chat that is left out was created
    no later than every message returned. *)
Theorem getMessages_window (d : DB) (chatId : string) (limit : nat) :
  timestamped d →
  length (getMessages d chatId limit) =
    (limit `min` length (filter (λ m, m_chatId m = chatId) (messages d)))%nat ∧
  (∀ m, m ∈ getMessages d chatId limit →
        m ∈ messages d ∧ m_chatId m = chatId) ∧
  Sorted not_after (getMessages d chatId limit) ∧
  (∀ m m', m ∈ getMessages d chatId limit →
           m' ∈ messages d → m_chatId m' = chatId →
           m' ∉ getMessages d chatId limit → not_after m' m).
Proof.
  intros Ht.
  pose proof (newest_first_messages_sorted
                (filter (λ m, m_chatId m = chatId) (messages d))) as Hsorted.
  unfold getMessages.
  set (cmp := λ a b : Message, desc (m_createdAt a) (m_createdAt b)) in *.
  set (sorted := Array_sort cmp
                   (filter (λ m, m_chatId m = chatId) (messages d))) in *.
  assert (∀ m, m ∈ sorted → m ∈ messages d ∧ m_chatId m = chatId) as Hin.
  { intros m Hm. unfold sorted in Hm.
    rewrite elem_of_Array_sort, list_elem_of_filter in Hm. by destruct Hm. }
  rewrite <- (take_drop limit sorted) in Hsorted.
  apply StronglySorted_app in Hsorted as (Hcross & Htake & _).
  split; [|split; [|split]].
  - rewrite length_reverse, length_take. unfold sorted.
    by rewrite Array_sort_Permutation.
  - intros m Hm. rewrite elem_of_reverse in Hm.
    by apply Hin, (elem_of_take_inv _ limit).
  - apply StronglySorted_Sorted, Sorted_reverse in Htake.
    eapply Sorted_impl; [|exact Htake]. simpl.
    intros a b Ha Hb Hab. rewrite elem_of_reverse in Ha, Hb.
    apply (desc_not_after d); [done| | |done]; by apply Hin, (elem_of_take_inv _ limit).
  - intros m m' Hm Hm' Hk Hout. rewrite elem_of_reverse in Hm.
    assert (m' ∈ sorted) as Hs.
    { unfold sorted. rewrite elem_of_Array_sort, list_elem_of_filter. done. }
    rewrite <- (take_drop limit sorted) in Hs.
    apply elem_of_app in Hs as [Hs|Hs].
    + destruct Hout. by apply elem_of_reverse.
    + apply (desc_not_after d); [done| |done|by apply Hcross].
      by apply Hin, (elem_of_take_inv _ limit).
Qed.

Lemma getMessages_window_witness :
  length (getMessages (db demo_talk) "id-0" 2) =
    (2 `min` length (filter (λ m, m_chatId m = "id-0")
                            (messages (db demo_talk))))%nat ∧
  (∀ m, m ∈ getMessages (db demo_talk) "id-0" 2 →
        m ∈ messages (db demo_talk) ∧ m_chatId m = "id-0") ∧
  Sorted not_after (getMessages (db demo_talk) "id-0" 2) ∧
  (∀ m m', m ∈ getMessages (db demo_talk) "id-0" 2 →
           m' ∈ messages (db demo_talk) → m_chatId m' = "id-0" →
           m' ∉ getMessages (db demo_talk) "id-0" 2 → not_after m' m).
Proof.
  apply (getMessages_window (db demo_talk) "id-0" 2).
  apply (bool_decide_unpack _). vm_compute. exact I.
Defined.

Example getMessages_demo_talk :
  (λ m, (m_senderId m, m_createdAt m)) <$>
    getMessages (db demo_talk) "id-0" 2 =
  [("bob", Some 1002); ("alice", Some 1003)].
Proof. reflexivity. Qed.

(** ** Posting a message *)







Lemma filter_update_where_same {A} (P : A → Prop) `{∀ x, Decision (P x)}
    (f : A → A) (l : list A) :
  (∀ x, P x → P (f x)) →
  filter P (update_where P f l) = f <$> filter P l.
Proof.
  intros Hf. unfold update_where. induction l as [|x l IH]; [done|].
  rewrite fmap_cons. destruct (decide (P x)) as [HP|HP].
  - rewrite !filter_cons_True by auto. rewrite fmap_cons. by f_equal.
  - by rewrite !filter_cons_False.
Qed.



(** ** Friend requests, from request to answer *)

Lemma getFriendship_sym d a b : getFriendship d a b = getFriendship d b a.
Proof.
  unfold getFriendship. f_equal. apply list_filter_iff. intros f. tauto.
Qed.

Lemma getFriendship_None d a b :
  getFriendship d a b = None ↔ ∀ f, f ∈ friendships d → ¬ between f a b.
Proof. unfold getFriendship. by rewrite first_row_None. Qed.

Lemma POST_friends_existing w userId b f :
  createFriendshipSchema b →
  f ∈ friendships (db w) → between f userId (friendId b) →
  POST_friends userId b w =
    (mkResponse 400 (JError "Friendship already exists"), w).
Proof.
  intros Hb Hf Hbetween. unfold POST_friends. run.
  rewrite decide_True by done.
  destruct (getFriendship (db w) userId (friendId b)) as [g|] eqn:Hg; [done|].
  rewrite getFriendship_None in Hg. by destruct (Hg f Hf).
Qed.

Lemma POST_friends_new w userId b :
  createFriendshipSchema b →
  getFriendship (db w) userId (friendId b) = None →
  (uuids w (drawn w) ∉ f_id <$> friendships (db w)) →
  POST_friends userId b w =
    (mkResponse 200 (JFriendship (Some (requested w userId (friendId b)))),
     mkWorld (set_friendships (db w)
                (friendships (db w) ++ [requested w userId (friendId b)]))
             (clock w) (uuids w) (S (drawn w))).
Proof.
  intros Hb Hnone Hfresh. unfold POST_friends. run.
  rewrite decide_True by done. rewrite Hnone.
  unfold createFriendship, gen_random_uuid, insert_returning. run.
  by rewrite decide_False.
Qed.

(** X13. A friend request is taken once. The friendship lookup does not depend on
    the order of the two users. A friend request towards a user with whom a
    friendship record already exists, in either direction and whatever its
    status (pending, accepted or rejected), is answered 400 and changes
    nothing. Otherwise, with a fresh id, the request is answered 200 and
    appends one pending friendship from the caller to the other user, which
    then shows among the other user's pending requests and in nobody's
    friend list. *)
Theorem POST_friends_once (w : World) (userId : string)
    (b : CreateFriendshipBody) :
  createFriendshipSchema b →
  getFriendship (db w) userId (friendId b) =
    getFriendship (db w) (friendId b) userId ∧
  (∀ f, f ∈ friendships (db w) → between f userId (friendId b) →
     POST_friends userId b w =
       (mkResponse 400 (JError "Friendship already exists"), w)) ∧
  (getFriendship (db w) userId (friendId b) = None →
   (uuids w (drawn w) ∉ f_id <$> friendships (db w)) →
   let f := requested w userId (friendId b) in
   let w' := (POST_friends userId b w).2 in
   (POST_friends userId b w).1 = mkResponse 200 (JFriendship (Some f)) ∧
   friendships (db w') = friendships (db w) ++ [f] ∧
   f ∈ getPendingRequests (db w') (friendId b) ∧
   (∀ u, f ∉ getUserFriends (db w') u)).
Proof.
  intros Hb. split; [apply getFriendship_sym|]. split.
  - intros f. by apply POST_friends_existing.
  - intros Hnone Hfresh. cbv zeta. rewrite POST_friends_new by done. simpl.
    split; [done|]. split; [done|]. split.
    + unfold getPendingRequests. simpl. apply list_elem_of_filter.
      split; [done|]. apply elem_of_snoc. by right.
    + intros u [[_ Hst] _]%list_elem_of_filter. discriminate Hst.
Qed.

Lemma POST_friends_once_witness :
  POST_friends "bob" (mkCreateFriendshipBody "alice") demo_friends =
    (mkResponse 400 (JError "Friendship already exists"), demo_friends).
Proof.
  apply (proj1 (proj2 (POST_friends_once demo_friends "bob"
                         (mkCreateFriendshipBody "alice")
                         ltac:(unfold createFriendshipSchema; simpl; lia)))
           (mkFriendship "id-0" "alice" "bob" pending (Some 1000))).
  - vm_compute. left.
  - right. split; reflexivity.
Defined.

Lemma PATCH_friend_status w userId friendshipId b g :
  updateFriendshipSchema b →
  g ∈ friendships (db (PATCH_friend userId friendshipId b w).2) →
  (f_id g = friendshipId ∧ f_status g = uf_status b ∧
   ∃ f, f ∈ friendships (db w) ∧ g = with_status (uf_status b) f) ∨
  (f_id g ≠ friendshipId ∧ g ∈ friendships (db w)).
Proof.
  intros Hb. rewrite PATCH_friend_run by done. simpl.
  intros (f & -> & Hf)%list_elem_of_fmap. case_decide as Hid.
  - left. split; [done|]. split; [done|]. eauto.
  - right. done.
Qed.

(** X14. Answering a friend request. Once a friendship is accepted it shows
    in the friend lists of both users and is no longer pending; once it is
    rejected it shows in no friend list and among no pending requests, yet
    the record stays, so a new request between the two users, from either
    side, is still answered 400. *)
Theorem PATCH_friend_answers (w : World) (caller : string) (f : Friendship) :
  f ∈ friendships (db w) →
  (let w' := (PATCH_friend caller (f_id f)
                (mkUpdateFriendshipBody accepted) w).2 in
   with_status accepted f ∈ getUserFriends (db w') (f_userId f) ∧
   with_status accepted f ∈ getUserFriends (db w') (f_friendId f) ∧
   ∀ u g, g ∈ getPendingRequests (db w') u → f_id g ≠ f_id f) ∧
  (let w' := (PATCH_friend caller (f_id f)
                (mkUpdateFriendshipBody rejected) w).2 in
   (∀ u g, g ∈ getUserFriends (db w') u → f_id g ≠ f_id f) ∧
   (∀ u g, g ∈ getPendingRequests (db w') u → f_id g ≠ f_id f) ∧
   (∀ b, createFriendshipSchema b → friendId b = f_friendId f →
         POST_friends (f_userId f) b w' =
           (mkResponse 400 (JError "Friendship already exists"), w')) ∧
   (∀ b, createFriendshipSchema b → friendId b = f_userId f →
         POST_friends (f_friendId f) b w' =
           (mkResponse 400 (JError "Friendship already exists"), w'))).
Proof.
  intros Hf.
  assert (∀ s, updateFriendshipSchema (mkUpdateFriendshipBody s) →
            with_status s f ∈
              friendships (db (PATCH_friend caller (f_id f)
                                 (mkUpdateFriendshipBody s) w).2)) as Hin.
  { intros s Hs. rewrite PATCH_friend_run by done. simpl.
    by apply elem_of_update_where. }
  assert (updateFriendshipSchema (mkUpdateFriendshipBody accepted)) as Ha
    by by left.
  assert (updateFriendshipSchema (mkUpdateFriendshipBody rejected)) as Hr
    by by right.
  split; cbv zeta.
  - split; [|split].
    + apply list_elem_of_filter. split; [|by apply Hin]. split; [by left|done].
    + apply list_elem_of_filter. split; [|by apply Hin]. split; [by right|done].
    + intros u g [[_ Hst] Hg]%list_elem_of_filter Hid.
      apply PATCH_friend_status in Hg as [(_ & Hs & _)|[Hne _]]; [|done..].
      simpl in Hs. congruence.
  - split; [|split; [|split]].
    + intros u g [[_ Hst] Hg]%list_elem_of_filter Hid.
      apply PATCH_friend_status in Hg as [(_ & Hs & _)|[Hne _]]; [|done..].
      simpl in Hs. congruence.
    + intros u g [[_ Hst] Hg]%list_elem_of_filter Hid.
      apply PATCH_friend_status in Hg as [(_ & Hs & _)|[Hne _]]; [|done..].
      simpl in Hs. congruence.
    + intros b Hb Hto.
      apply (POST_friends_existing _ _ _ (with_status rejected f));
        [done|by apply Hin|]. left. by rewrite Hto.
    + intros b Hb Hto.
      apply (POST_friends_existing _ _ _ (with_status rejected f));
        [done|by apply Hin|]. right. by rewrite Hto.
Qed.

Lemma PATCH_friend_answers_witness :
  let w' := (PATCH_friend "bob" "id-0" (mkUpdateFriendshipBody accepted)
               demo_friends).2 in
  mkFriendship "id-0" "alice" "bob" accepted (Some 1000) ∈
    getUserFriends (db w') "alice" ∧
  mkFriendship "id-0" "alice" "bob" accepted (Some 1000) ∈
    getUserFriends (db w') "bob" ∧
  ∀ u g, g ∈ getPendingRequests (db w') u → f_id g ≠ "id-0".
Proof.
  apply (proj1 (PATCH_friend_answers demo_friends "bob"
                  (mkFriendship "id-0" "alice" "bob" pending (Some 1000))
                  ltac:(vm_compute; left))).
Defined.

(** ** What a request never does *)

Section preserves_rules.
Context (I : DB → Prop).

Lemma preserves_bind {A B} (m : Async A) (f : A → Async B) :
  preserves I m → (∀ a, preserves I (f a)) → preserves I (m ≫= f).
Proof.
  intros Hm Hf w Hw. unfold mbind, Async_bind.
  specialize (Hm w Hw). destruct (m w) as [[a|e] w1]; [|done].
  by apply Hf.
Qed.

Lemma preserves_ret {A} (a : A) : preserves I (mret a).
Proof. by intros w Hw. Qed.

Lemma preserves_query {A} (f : DB → A) : preserves I (query f).
Proof. by intros w Hw. Qed.

Lemma preserves_now : preserves I now.
Proof. by intros w Hw. Qed.

Lemma preserves_gen_random_uuid : preserves I gen_random_uuid.
Proof. by intros w Hw. Qed.

Lemma preserves_execute (f : DB → DB) :
  (∀ d, I d → I (f d)) → preserves I (execute f).
Proof. intros Hf w Hw. by apply Hf. Qed.

Lemma preserves_insert_returning {A} (table : DB → list A) key store row :
  (∀ d, I d → key row ∉ key <$> table d →
        I (store d (table d ++ [row]))) →
  preserves I (insert_returning table key store row).
Proof.
  intros Hins w Hw. unfold insert_returning.
  case_decide; simpl; [done|by apply Hins].
Qed.

Lemma preserves_for_of {A} (l : list A) body :
  (∀ x, preserves I (body x)) → preserves I (for_of l body).
Proof.
  intros Hbody. induction l as [|x l IH]; simpl.
  - apply preserves_ret.
  - apply preserves_bind; [apply Hbody|]. intros ?. apply IH.
Qed.

Lemma preserves_try_catch h message w :
  preserves I h → I (db w) → I (db (try_catch h message w).2).
Proof.
  intros Hh Hw. unfold try_catch. specialize (Hh w Hw).
  by destruct (h w) as [[r|e] w1].
Qed.
End preserves_rules.

(** Walk through a handler body; [leaf] settles the writes. *)
Ltac preserve leaf :=
  repeat match goal with
    | |- preserves _ (mret _) => apply preserves_ret
    | |- preserves _ (query _) => apply preserves_query
    | |- preserves _ now => apply preserves_now
    | |- preserves _ gen_random_uuid => apply preserves_gen_random_uuid
    | |- preserves _ (_ ≫= _) => apply preserves_bind; [|intros ?]
    | |- preserves _ (for_of _ _) => apply preserves_for_of; intros ?
    | |- preserves _ (execute _) =>
        apply preserves_execute; intros ? ?; leaf
    | |- preserves _ (insert_returning _ _ _ _) =>
        apply preserves_insert_returning; intros ? ? ?; leaf
    | |- preserves _ (let _ := _ in _) => cbv zeta
    | |- preserves _ (if decide ?P then _ else _) => destruct (decide P)
    | |- preserves _ (match ?x with _ => _ end) => destruct x
    | |- preserves _ _ =>
        progress unfold json, status_json, createChat, updateChat,
          deleteChat, addChatParticipant, removeChatParticipant,
          updateParticipantRole, createMessage, markMessagesAsRead,
          createFriendship, updateFriendshipStatus
    end.





Ltac unfold_handlers :=
  unfold GET_chats, GET_chat, POST_chats, POST_groups, GET_chat_messages,
    POST_chat_messages, PATCH_group, POST_group_members, DELETE_group_member,
    PATCH_group_member_role, GET_friends, GET_friends_requests, POST_friends,
    PATCH_friend.

Ltac messages_leaf :=
  idtac; match goal with
  | H : messages_kept _ _ |- _ =>
      first [ exact H
            | unfold messages_kept in *; simpl; apply prefix_app_r; exact H ]
  end.



Lemma DELETE_group_effect w userId chatId :
  db (DELETE_group userId chatId w).2 = db w ∨
  db (DELETE_group userId chatId w).2 =
    mkDB (delete_where (λ c, c_id c = chatId) (chats (db w)))
         (delete_where (λ p, p_chatId p = chatId) (chatParticipants (db w)))
         (delete_where (λ m, m_chatId m = chatId) (messages (db w)))
         (friendships (db w)).
Proof.
  unfold DELETE_group, deleteChat. run.
  destruct (getChat (db w) chatId) as [chat|]; [|by left]. simpl.
  case_decide; [by left|by right].
Qed.

(** X15. The message log is append-only. No request edits, reorders or
    removes a message: after any request other than the deletion of a chat,
    the message table starts with the table as it was. Deleting a chat
    either changes no message (when it is refused) or removes exactly the
    messages of that chat. *)
Theorem message_log_append_only (w : World) (userId : string) (r : Request) :
  match r with
  | DeleteGroup chatId =>
      messages (db (handle userId r w).2) = messages (db w) ∨
      messages (db (handle userId r w).2) =
        filter (λ m, m_chatId m ≠ chatId) (messages (db w))
  | _ => messages (db w) `prefix_of` messages (db (handle userId r w).2)
  end.
Proof.
  assert (messages_kept (db w) (db w)) as Hrefl
    by (unfold messages_kept; reflexivity).
  destruct r; cbn [handle]; unfold_handlers;
    try (match goal with
         | |- context [try_catch ?h ?m w] =>
             change (messages_kept (db w) (db (try_catch h m w).2))
         end;
         apply preserves_try_catch; [|exact Hrefl];
         preserve messages_leaf).
  match goal with
  | |- context [DELETE_group _ ?k _] =>
      destruct (DELETE_group_effect w userId k) as [-> | ->]
  end; [by left|by right].
Qed.


(** ** One friendship per pair, in every reachable state *)









(** ** One chat, and its settings *)

Lemma head_getMessages_latest d chatId :
  timestamped d →
  match head (getMessages d chatId 1) with
  | Some m => latest_of d chatId m
  | None => ∀ m, m ∈ messages d → m_chatId m ≠ chatId
  end.
Proof.
  intros Ht.
  pose proof (newest_first_messages_sorted
                (filter (λ m, m_chatId m = chatId) (messages d))) as Hsorted.
  assert (∀ m, m ∈ Array_sort
                     (λ a b, desc (m_createdAt a) (m_createdAt b))
                     (filter (λ m, m_chatId m = chatId) (messages d)) ↔
               m ∈ messages d ∧ m_chatId m = chatId) as Hin.
  { intros m. rewrite elem_of_Array_sort, list_elem_of_filter. tauto. }
  unfold getMessages.
  destruct (Array_sort _ _) as [|m rest]; simpl.
  - intros m Hm Hk. by apply (elem_of_nil m), Hin.
  - destruct (proj1 (Hin m) ltac:(by left)) as [Hm Hk].
    split; [done|]. split; [done|]. intros m' Hm' Hk'.
    apply StronglySorted_inv in Hsorted as [_ Hfirst].
    destruct (proj1 (elem_of_cons _ _ _) (proj2 (Hin m') ltac:(done)))
      as [->|Hrest].
    + destruct (proj2 Ht m Hm) as [t Htm]. exists t, t. by rewrite Htm.
    + apply (desc_not_after d); [done..|].
      rewrite Forall_forall in Hfirst. by apply Hfirst.
Qed.

(** X18. GET /api/chats/:chatId changes nothing and answers any caller,
    participant of the chat or not, the same: 404 when no chat has that id,
    and otherwise 200 with the chat row, all Participation rows of the chat,
    an unread count of 0 whatever the caller has read, and as last message a
    most recent message of the chat (none exactly when the chat has no
    message). *)
Theorem GET_chat_details (w : World) (userId chatId : string) :
  timestamped (db w) →
  (GET_chat userId chatId w).2 = w ∧
  (∀ other, GET_chat other chatId w = GET_chat userId chatId w) ∧
  (getChat (db w) chatId = None →
   (GET_chat userId chatId w).1 =
     mkResponse 404 (JError "Chat not found")) ∧
  (∀ chat, getChat (db w) chatId = Some chat →
     ∃ details,
       (GET_chat userId chatId w).1 =
         mkResponse 200 (JChatWithDetails (Some details)) ∧
       cd_chat details = chat ∧
       (∀ p, p ∈ participants details ↔
             p ∈ chatParticipants (db w) ∧ p_chatId p = chatId) ∧
       unreadCount details = 0%nat ∧
       match lastMessage details with
       | Some m => latest_of (db w) chatId m
       | None => ∀ m, m ∈ messages (db w) → m_chatId m ≠ chatId
       end).
Proof.
  intros Ht. unfold GET_chat. run. unfold getChatWithDetails.
  destruct (getChat (db w) chatId) as [chat|] eqn:Hchat; simpl.
  - split; [done|]. split; [done|]. split; [done|].
    intros ? [= <-]. eexists. split; [done|]. simpl.
    split; [done|]. split.
    { intros p. unfold getChatParticipants.
      rewrite list_elem_of_filter. tauto. }
    split; [done|]. by apply head_getMessages_latest.
  - by repeat split.
Qed.

Lemma GET_chat_details_witness :
  (GET_chat "carol" "id-0" demo_talk).2 = demo_talk ∧
  (∀ other, GET_chat other "id-0" demo_talk =
            GET_chat "carol" "id-0" demo_talk).
Proof.
  pose proof (GET_chat_details demo_talk "carol" "id-0") as H.
  split; apply H; apply (bool_decide_unpack _); vm_compute; exact I.
Defined.

Example GET_chat_demo_talk :
  match body (GET_chat "carol" "id-0" demo_talk).1 with
  | JChatWithDetails (Some details) =>
      (p_userId <$> participants details,
       (λ m, (m_senderId m, m_createdAt m)) <$> lastMessage details)
  | _ => ([], None)
  end = (["alice"; "bob"], Some ("alice", Some 1003)).
Proof. reflexivity. Qed.

(** X19. An admin edits the chat's settings. In a world the server can
    reach, when the caller's Participation in the chat (the first one) has
    role admin and the body is well formed, the chat exists and is not a
    private chat, the request is answered 200 with the chat row in which the
    given fields replace the old ones and [updatedAt] is the current time,
    that row is then the chat's row, its id, kind, creator and creation
    time are as before, and nothing else changes: rows of other chats,
    participations, messages and friendships are as they were. *)
Theorem PATCH_group_by_admin (w : World) (userId chatId : string)
    (b : UpdateGroupBody) (p : ChatParticipant) :
  reachable w →
  updateGroupSchema b →
  getChatParticipant (db w) chatId userId = Some p →
  p_role p = admin →
  ∃ chat,
    getChat (db w) chatId = Some chat ∧ c_type chat ≠ private ∧
    let w' := (PATCH_group userId chatId b w).2 in
    (PATCH_group userId chatId b w).1 =
      mkResponse 200 (JChat (Some (patched (clock w) b chat))) ∧
    getChat (db w') chatId = Some (patched (clock w) b chat) ∧
    same_chat chat (patched (clock w) b chat) ∧
    (∀ c, c_id c ≠ chatId → c ∈ chats (db w') ↔ c ∈ chats (db w)) ∧
    chatParticipants (db w') = chatParticipants (db w) ∧
    messages (db w') = messages (db w) ∧
    friendships (db w') = friendships (db w).
Proof.
  intros Hw%reachable_consistent Hb Hp Hadmin.
  destruct (getChatParticipant_Some _ _ _ _ Hp) as [[Hk _] Hin].
  destruct (rows_have_chat _ Hw p Hin) as (c0 & Hc0 & Hid0).
  destruct (getChat (db w) chatId) as [chat|] eqn:Hchat.
  2: { unfold getChat in Hchat. rewrite first_row_None in Hchat.
       destruct (Hchat c0 Hc0). congruence. }
  exists chat. split; [done|].
  destruct (getChat_Some _ _ _ Hchat) as [Hid Hcin]. split.
  { intros Hpriv.
    rewrite (private_rows_member _ Hw chat p) in Hadmin; [done..|congruence]. }
  cbv zeta. unfold PATCH_group, updateChat. run.
  rewrite decide_True by done. rewrite Hp. simpl.
  rewrite decide_False by (intros Hn; by apply Hn).
  simpl. unfold getChat, first_row in *. simpl.
  rewrite !filter_update_where_same by done.
  destruct (filter (λ c, c_id c = chatId) (chats (db w))) as [|c l] eqn:Hf;
    [done|].
  injection Hchat as ->. simpl.
  split; [done|]. split; [done|]. split; [by repeat split|].
  split; [|done].
  intros c Hne. unfold update_where. rewrite list_elem_of_fmap. split.
  - intros (c1 & -> & Hc1). case_decide; [by destruct Hne|done].
  - intros Hc. exists c. by rewrite decide_False.
Qed.

Lemma PATCH_group_by_admin_witness :
  ∃ chat,
    getChat (db demo_group) "id-0" = Some chat ∧ c_type chat ≠ private ∧
    let w' := (PATCH_group "alice" "id-0"
                 (mkUpdateGroupBody (Some "crew") None None) demo_group).2 in
    (PATCH_group "alice" "id-0"
       (mkUpdateGroupBody (Some "crew") None None) demo_group).1 =
      mkResponse 200
        (JChat (Some (patched (clock demo_group)
                        (mkUpdateGroupBody (Some "crew") None None) chat))) ∧
    getChat (db w') "id-0" =
      Some (patched (clock demo_group)
              (mkUpdateGroupBody (Some "crew") None None) chat) ∧
    same_chat chat (patched (clock demo_group)
                      (mkUpdateGroupBody (Some "crew") None None) chat) ∧
    (∀ c, c_id c ≠ "id-0" → c ∈ chats (db w') ↔ c ∈ chats (db demo_group)) ∧
    chatParticipants (db w') = chatParticipants (db demo_group) ∧
    messages (db w') = messages (db demo_group) ∧
    friendships (db w') = friendships (db demo_group).
Proof.
  apply (PATCH_group_by_admin demo_group "alice" "id-0"
           (mkUpdateGroupBody (Some "crew") None None)
           (mkChatParticipant "id-1" "id-0" "alice" admin (Some 1000) None)).
  - apply (reachable_serve demo_world "alice"
             (PostGroups (mkCreateGroupBody "team" None (Some ["bob"]) None))).
    apply reachable_init.
  - unfold updateGroupSchema. simpl. unfold length_between. simpl. lia.
  - reflexivity.
  - reflexivity.
Defined.

